(** * e-puck ROS2 driver (epuck_ros2_cpp/src/controller.cpp)

    A shallow embedding of the Pi-puck driver node: the proximity
    intensity-to-distance table, the 21-entry laser scan built from the eight
    proximity sensors, the differential-drive conversion of a velocity command
    into the two wheel registers, and the periodic I2C exchange.

    C++ [float] and [double] values are IEEE-754 binary32 and binary64 numbers,
    embedded as [spec_float] with the operations of the standard library's
    [SpecFloat] (round to nearest, ties to even).  C++ [int] is a 32-bit
    integer embedded as [Z]; the bytes of the two I2C frames are [Z] values in
    [0, 255]. *)

From Stdlib Require Import ZArith Lia List Bool.
From Stdlib Require String.
Import String.StringSyntax.
Delimit Scope string_scope with string.
From Stdlib Require Import Floats.SpecFloat.
Import ListNotations.
Local Open Scope Z_scope.

(** ** IEEE-754 formats *)

(** [float]: binary32. *)
Module F32.
Definition prec := 24.
Definition emax := 128.
Definition add := SFadd prec emax.
Definition sub := SFsub prec emax.
Definition mul := SFmul prec emax.
Definition div := SFdiv prec emax.
Definition valid := valid_binary prec emax.
(** [x < y], [x >= y] and [x <= y] of C++: false as soon as a side is a NaN. *)
Definition ltb (x y : spec_float) : bool := SFltb x y.
Definition geb (x y : spec_float) : bool := SFleb y x.
Definition leb (x y : spec_float) : bool := SFleb x y.
(** Conversion of an [int]. *)
Definition of_int (n : Z) : spec_float := binary_normalize prec emax n 0 false.
(** Conversion of a [double], rounding to nearest. *)
Definition of_float (x : spec_float) : spec_float :=
  match x with
  | S754_finite s m e => binary_round prec emax s m e
  | _ => x
  end.
End F32.

(** [double]: binary64. *)
Module F64.
Definition prec := 53.
Definition emax := 1024.
Definition add := SFadd prec emax.
Definition sub := SFsub prec emax.
Definition mul := SFmul prec emax.
Definition div := SFdiv prec emax.
Definition valid := valid_binary prec emax.
Definition ltb (x y : spec_float) : bool := SFltb x y.
Definition gtb (x y : spec_float) : bool := SFltb y x.
Definition of_int (n : Z) : spec_float := binary_normalize prec emax n 0 false.
(** Conversion of a [float]: exact, the value is only written again with a
    53-bit mantissa. *)
Definition of_float (x : spec_float) : spec_float :=
  match x with
  | S754_finite s m e => binary_round prec emax s m e
  | _ => x
  end.
(** Conversion to [int]: the fractional part is discarded.  (Values outside
    the range of [int], infinities and NaN have no defined conversion in
    C++; the driver only converts clipped values.) *)
Definition to_int (x : spec_float) : Z :=
  match x with
  | S754_finite s m (Zneg k) => cond_Zopp s (Z.pos m / 2 ^ Z.pos k)
  | S754_finite s m e => cond_Zopp s (Z.pos m * 2 ^ e)
  | _ => 0
  end.
End F64.

(** An integer as a number with exponent 0, not yet rounded to a format. *)
Definition unrounded (n : Z) : spec_float :=
  match n with
  | Z0 => S754_zero false
  | Zpos p => S754_finite false p 0
  | Zneg p => S754_finite true p 0
  end.

(** A decimal literal [n / 10^k] of the source text, of type [double]: the
    binary64 number nearest to the quotient (one correctly rounded division). *)
Definition lit64 (n : Z) (k : Z) : spec_float :=
  F64.div (unrounded n) (unrounded (10 ^ k)).

(** The same literal stored in a [float]. *)
Definition lit32 (n : Z) (k : Z) : spec_float :=
  F32.of_float (lit64 n k).

(** ** Distance model *)

(** The function's table: rows [{distance, intensity}], so that [fst] is
    [table[i][0]] and [snd] is [table[i][1]].  The entries are [float]s
    initialised from [int] and [double] literals. *)
Definition table : list (spec_float * spec_float) :=
  Eval vm_compute in
  [ (F32.of_int 0,   F32.of_int 4095);
    (lit32 5 3,      lit32 213333 2);
    (lit32 1 2,      lit32 146573 2);
    (lit32 15 3,     lit32 60146 2);
    (lit32 2 2,      lit32 38384 2);
    (lit32 3 2,      lit32 23493 2);
    (lit32 4 2,      lit32 15803 2);
    (lit32 5 2,      F32.of_int 120);
    (lit32 6 2,      lit32 10409 2);
    (lit32 7 2,      lit32 6719 2);
    (lit32 1 1,      F32.of_float (lit64 0 1)) ].

(** The value returned when no pair of rows brackets the input. *)
Definition sentinel : spec_float := Eval vm_compute in F32.of_float (lit64 1000 1).

(** The interpolation of lines 83-88, between the rows [b] (index [i]) and [a]
    (index [i + 1]); every operation is a [float] operation. *)
Definition interpolate (b a : spec_float * spec_float) (p_x : spec_float) : spec_float :=
  let b_x := snd b in
  let b_y := fst b in
  let a_x := snd a in
  let a_y := fst a in
  F32.add (F32.mul (F32.div (F32.sub b_y a_y) (F32.sub b_x a_x)) (F32.sub p_x a_x)) a_y.

(** The loop of [intensity_to_distance] over consecutive rows, from row [i]
    on: the first bracketing pair returns. *)
Fixpoint scan_rows (rows : list (spec_float * spec_float)) (p_x : spec_float) : spec_float :=
  match rows with
  | b :: ((a :: _) as rest) =>
      if F32.geb (snd b) p_x && F32.ltb (snd a) p_x
      then interpolate b a p_x
      else scan_rows rest p_x
  | _ => sentinel
  end.

Definition intensity_to_distance (p_x : spec_float) : spec_float :=
  scan_rows table p_x.

(** ** Kinematics converter *)

Definition WHEEL_DISTANCE : spec_float := Eval vm_compute in lit64 5685 5.
Definition WHEEL_RADIUS : spec_float := Eval vm_compute in lit64 2 2.

(** The literals [2.0] and [0.0068] of [on_cmd_vel_received]. *)
Definition two : spec_float := Eval vm_compute in lit64 20 1.
Definition register_step : spec_float := Eval vm_compute in lit64 68 4.

(** The macro [CLIP(VAL, MIN, MAX)], that is [max(min((MAX), (VAL)), (MIN))]
    with [min(X, Y) = (X < Y) ? X : Y] and [max(X, Y) = (X > Y) ? X : Y], at a
    [double] value and two [int] bounds: both conditionals are [double]. *)
Definition CLIP (VAL : spec_float) (MIN MAX : Z) : spec_float :=
  let mn := if F64.ltb (F64.of_int MAX) VAL then F64.of_int MAX else VAL in
  if F64.gtb mn (F64.of_int MIN) then mn else F64.of_int MIN.

Definition left_velocity (linear_x angular_z : spec_float) : spec_float :=
  F64.div (F64.sub (F64.mul two linear_x) (F64.mul angular_z WHEEL_DISTANCE))
          (F64.mul two WHEEL_RADIUS).

Definition right_velocity (linear_x angular_z : spec_float) : spec_float :=
  F64.div (F64.add (F64.mul two linear_x) (F64.mul angular_z WHEEL_DISTANCE))
          (F64.mul two WHEEL_RADIUS).

(** [left_velocity_big] and [right_velocity_big]: the two wheel registers,
    [int]s initialised from the clipped [double]. *)
Definition velocity_big (velocity : spec_float) : Z :=
  F64.to_int (CLIP (F64.div velocity register_step) (-1108) 1108).

Definition cmd_to_registers (linear_x angular_z : spec_float) : Z * Z :=
  (velocity_big (left_velocity linear_x angular_z),
   velocity_big (right_velocity linear_x angular_z)).

(** ** The node *)

Definition MSG_ACTUATORS_SIZE : nat := 20.
Definition MSG_SENSORS_SIZE : nat := 47.
Definition PERIOD_MS : Z := 64.

(** The two frames; a byte is its value in [0, 255]. *)
Record node := {
  msg_actuators : list Z;
  msg_sensors : list Z
}.

(** The constructor: both frames zeroed. *)
Definition init : node :=
  {| msg_actuators := repeat 0 MSG_ACTUATORS_SIZE;
     msg_sensors := repeat 0 MSG_SENSORS_SIZE |}.

(** [buf[i] = v], for an index inside the buffer. *)
Fixpoint store (i : nat) (v : Z) (buf : list Z) : list Z :=
  match buf, i with
  | [], _ => []
  | _ :: t, O => v :: t
  | h :: t, S j => h :: store j v t
  end.

(** [buf[i]], for an index inside the buffer. *)
Definition load (i : nat) (buf : list Z) : Z := nth i buf 0.

(** The two bytes written for a register: [r & 0xFF] and [(r >> 8) & 0xFF]. *)
Definition low_byte (r : Z) : Z := Z.land r 255.
Definition high_byte (r : Z) : Z := Z.land (Z.shiftr r 8) 255.

Definition encode_registers (left_big right_big : Z) (frame : list Z) : list Z :=
  store 3 (high_byte right_big)
    (store 2 (low_byte right_big)
       (store 1 (high_byte left_big)
          (store 0 (low_byte left_big) frame))).

(** The two fields of the velocity command that the driver reads. *)
Record Twist := { linear_x : spec_float; angular_z : spec_float }.

Definition on_cmd_vel_received (st : node) (msg : Twist) : node :=
  let '(left_velocity_big, right_velocity_big) :=
    cmd_to_registers (linear_x msg) (angular_z msg) in
  {| msg_actuators := encode_registers left_velocity_big right_velocity_big (msg_actuators st);
     msg_sensors := msg_sensors st |}.

(** ** Scan assembler *)

(** The fields of [sensor_msgs::msg::LaserScan] that the driver sets; the
    metadata fields are [float]s. *)
Record LaserScan := {
  frame_id : String.string;
  stamp : Z;
  angle_min : spec_float;
  angle_max : spec_float;
  angle_increment : spec_float;
  scan_time : spec_float;
  range_min : spec_float;
  range_max : spec_float;
  ranges : list spec_float
}.

(** [M_PI] of <cmath>. *)
Definition M_PI : spec_float := Eval vm_compute in lit64 314159265358979323846 20.

Definition distance_from_center : spec_float := Eval vm_compute in lit32 35 3.

(** [dist[i]]. *)
Definition at_ (dist : list spec_float) (i : nat) : spec_float :=
  nth i dist (S754_zero false).

(** [(n1 / d1) * x + (n2 / d2) * y]: the two quotients are quotients of [int]
    literals, converted to [float] for the products. *)
Definition blend (n1 d1 : Z) (x : spec_float) (n2 d2 : Z) (y : spec_float) : spec_float :=
  F32.add (F32.mul (F32.of_int (Z.quot n1 d1)) x)
          (F32.mul (F32.of_int (Z.quot n2 d2)) y).

(** The initialiser of [msg.ranges], lines 143-165. *)
Definition scan_ranges (dist : list spec_float) : list spec_float :=
  let d := at_ dist in
  [ d 4%nat;
    blend 3 4 (d 4%nat) 1 4 (d 5%nat);
    blend 2 4 (d 4%nat) 2 4 (d 5%nat);
    blend 1 4 (d 4%nat) 3 4 (d 5%nat);
    d 5%nat;
    blend 2 3 (d 5%nat) 1 3 (d 6%nat);
    blend 1 3 (d 5%nat) 2 3 (d 6%nat);
    d 6%nat;
    blend 1 2 (d 6%nat) 1 2 (d 7%nat);
    d 7%nat;
    blend 1 2 (d 7%nat) 1 2 (d 0%nat);
    d 0%nat;
    blend 1 2 (d 0%nat) 1 2 (d 1%nat);
    d 1%nat;
    blend 2 3 (d 1%nat) 1 3 (d 2%nat);
    blend 1 3 (d 1%nat) 2 3 (d 2%nat);
    d 2%nat;
    blend 3 4 (d 2%nat) 1 4 (d 3%nat);
    blend 2 4 (d 2%nat) 2 4 (d 3%nat);
    blend 1 4 (d 2%nat) 3 4 (d 3%nat);
    d 3%nat ].

(** The value of a [char] holding the byte [b]: [char] is signed on some
    platforms (x86) and unsigned on others (ARM). *)
Definition char_value (char_signed : bool) (b : Z) : Z :=
  if char_signed && (128 <=? b) then b - 256 else b.

(** [msg_sensors[i * 2] + (msg_sensors[i * 2 + 1] << 8)]. *)
Definition distance_intensity (char_signed : bool) (sensors : list Z) (i : nat) : Z :=
  char_value char_signed (load (i * 2) sensors)
  + Z.shiftl (char_value char_signed (load (i * 2 + 1) sensors)) 8.

(** The loop "Decode measurements". *)
Definition decode_measurements (char_signed : bool) (sensors : list Z) : list spec_float :=
  map (fun i =>
         F32.add (intensity_to_distance (F32.of_int (distance_intensity char_signed sensors i)))
                 distance_from_center)
      (seq 0 8).

(** The message that [publish_distance_data] builds and hands to the
    publisher. *)
Definition publish_distance_data (char_signed : bool) (st : node) (stamp : Z) : LaserScan :=
  let dist := decode_measurements char_signed (msg_sensors st) in
  {| frame_id := "laser_scanner"%string;
     stamp := stamp;
     angle_min := F32.of_float (F64.div (F64.mul (F64.of_int (-150)) M_PI) (F64.of_int 180));
     angle_max := F32.of_float (F64.div (F64.mul (F64.of_int 150) M_PI) (F64.of_int 180));
     angle_increment := F32.of_float (F64.div (F64.mul (F64.of_int 15) M_PI) (lit64 1800 1));
     scan_time := F32.of_int (Z.quot PERIOD_MS 1000);
     range_min := F32.of_float (F64.add (lit64 5 3) (F64.of_float distance_from_center));
     range_max := F32.of_float (F64.add (lit64 5 2) (F64.of_float distance_from_center));
     ranges := scan_ranges dist |}.

(** ** Periodic exchange driver *)

(** The I2C wrapper ([epuck_ros2_cpp/i2c_wrapper.hpp]) is not part of the
    source file; its answers during one tick are inputs of the model: the
    status of [set_address], the status of [write_data], and for [read_data]
    its status and the bytes the device delivered. *)
Record transport := {
  set_address_status : Z;
  write_status : Z;
  read_status : Z;
  read_bytes : list Z
}.

(** The calls made on the wrapper. *)
Inductive call :=
| SetAddress (address : Z)
| WriteData (buffer : list Z) (size : nat)
| ReadData (size : nat).

(** How a callback ends: it returns, or a failed [assert] aborts the process. *)
Inductive ending := Returned | Aborted.

Record tick := {
  node_after : node;
  calls : list call;
  published : list LaserScan;
  ended : ending
}.

(** Modelled from the spec: [read_data(buffer, size)] of the I2C wrapper, a
    blocking read of raw bytes into the buffer.  The delivered bytes, at most
    [size], overwrite the start of the buffer. *)
Definition read_data (buffer : list Z) (size : nat) (t : transport) : list Z :=
  let got := firstn size (read_bytes t) in
  got ++ skipn (length got) buffer.

(** [update_callback].  [ndebug] tells whether the node was compiled with
    [NDEBUG], which removes the [assert]; [now] is the clock's reading.  The
    local variable [stamp] is assigned and never used. *)
Definition update_callback (ndebug : bool) (now : Z) (st : node) (t : transport) : tick :=
  let status := set_address_status t in
  if negb ndebug && negb (0 <=? status) then
    {| node_after := st; calls := [SetAddress 31]; published := []; ended := Aborted |}
  else
    let sensors := read_data (msg_sensors st) MSG_SENSORS_SIZE t in
    let stamp := if negb (status =? Z.of_nat MSG_SENSORS_SIZE) then now else 0 in
    {| node_after := {| msg_actuators := msg_actuators st; msg_sensors := sensors |};
       calls := [SetAddress 31;
                 WriteData (msg_actuators st) MSG_ACTUATORS_SIZE;
                 ReadData MSG_SENSORS_SIZE];
       published := [];
       ended := Returned |}.

(** The timer: one [update_callback] per tick while the process lives.  The
    result lists the ticks that ran, and the node at the end. *)
Fixpoint spin (ndebug : bool) (st : node) (ticks : list (Z * transport)) : list tick * node :=
  match ticks with
  | [] => ([], st)
  | (now, t) :: rest =>
      let r := update_callback ndebug now st t in
      match ended r with
      | Aborted => ([r], node_after r)
      | Returned =>
          let '(rs, st') := spin ndebug (node_after r) rest in
          (r :: rs, st')
      end
  end.

(** ** Values and rounding of floats *)

(** The location of a remainder [r] of a division by [n]. *)
Definition loc_of_rem (r n : Z) : location :=
  if r =? 0 then loc_Exact else loc_Inexact (2 * r ?= n).

(** Rounding [M / 2^n] to the nearest integer, ties to even. *)
Definition rne_div (M n : Z) : Z :=
  round_nearest_even (M / 2 ^ n) (loc_of_rem (M mod 2 ^ n) (2 ^ n)).

(** The last step of [binary_round_aux]: the float of a shifted mantissa. *)
Definition finish (prec emax : Z) (s : bool) (me : shr_record * Z) : spec_float :=
  match shr_m (fst me) with
  | Z0 => S754_zero s
  | Zpos m => if snd me <=? emax - prec then S754_finite s m (snd me) else S754_infinity s
  | Zneg _ => S754_nan
  end.

Definition is_nan (x : spec_float) : bool :=
  match x with S754_nan => true | _ => false end.

(** The sign bit of a float that is not a NaN. *)
Definition sign_of (x : spec_float) : bool :=
  match x with
  | S754_zero s | S754_infinity s | S754_finite s _ _ => s
  | S754_nan => false
  end.

(** The exponent of the unit in which values are counted: every float of the
    format, and every exact product of two of them, is a multiple of
    [2 ^ unit_exp]. *)
Definition unit_exp (prec emax : Z) : Z := 2 * emin prec emax.

(** The value of a float, in units; an infinity counts as the first power of
    two beyond the format. *)
Definition Zval (prec emax : Z) (x : spec_float) : Z :=
  match x with
  | S754_zero _ | S754_nan => 0
  | S754_infinity s => cond_Zopp s (2 ^ (emax - unit_exp prec emax))
  | S754_finite s m e => cond_Zopp s (Z.pos m * 2 ^ (e - unit_exp prec emax))
  end.

(** Rounding to nearest (ties to even) of a positive number of units. *)
Definition round_pos (prec emax : Z) (X : Z) : Z :=
  let n := fexp prec emax (Zdigits2 X + unit_exp prec emax) - unit_exp prec emax in
  Z.min (rne_div X n * 2 ^ n) (2 ^ (emax - unit_exp prec emax)).

Definition round_val (prec emax : Z) (X : Z) : Z :=
  match X with
  | Z0 => 0
  | Zpos _ => round_pos prec emax X
  | Zneg p => - round_pos prec emax (Zpos p)
  end.

(** Zeros and finite numbers. *)
Definition is_finite (x : spec_float) : bool :=
  match x with
  | S754_zero _ | S754_finite _ _ _ => true
  | _ => false
  end.

(** Values of [float] and [double] numbers. *)
Definition val32 : spec_float -> Z := Zval F32.prec F32.emax.
Definition val64 : spec_float -> Z := Zval F64.prec F64.emax.

(** ** Reference definitions, in the words of the specification *)

(** A little-endian signed 16-bit value read back from two bytes. *)
Definition decode_int16_le (low high : Z) : Z :=
  let u := low + 256 * high in
  if u <? 32768 then u else u - 65536.

(** Clipping to the symmetric range [[-bound, bound]]. *)
Definition clip_symmetric (v : spec_float) (bound : Z) : spec_float :=
  if F64.ltb v (F64.of_int (- bound)) then F64.of_int (- bound)
  else if F64.ltb (F64.of_int bound) v then F64.of_int bound
  else v.

(** A wheel velocity turned into a register: division by the calibration
    step, then clipping. *)
Definition register_of (wheel_velocity : spec_float) : Z :=
  F64.to_int (clip_symmetric (F64.div wheel_velocity (lit64 68 4)) 1108).

(** ** Checks on the distance table *)

(** The factor [(b_y - a_y) / (b_x - a_x)] of the interpolation. *)
Definition slope (b a : spec_float * spec_float) : spec_float :=
  F32.div (F32.sub (fst b) (fst a)) (F32.sub (snd b) (snd a)).

Definition finite32 (v : spec_float) : bool := F32.valid v && is_finite v.

(** What the proofs use of two consecutive rows [b], [a]: the numbers involved
    are finite, intensities are not negative and decrease, the slope is not
    positive, distances increase, and the interpolation at the upper end of
    the interval does not fall below the distance of row [b]. *)
Definition segment_ok (b a : spec_float * spec_float) : bool :=
  let top := F32.sub (snd b) (snd a) in
  forallb finite32 [fst b; snd b; fst a; snd a; slope b a; top; F32.mul (slope b a) top]
  && (val32 (slope b a) <=? 0)
  && (0 <=? val32 (snd a))
  && (val32 (snd a) <? val32 (snd b))
  && (val32 (fst b) <=? val32 (fst a))
  && (val32 (fst b) <=? val32 (interpolate b a (snd b))).

Fixpoint rows_ok (rows : list (spec_float * spec_float)) : bool :=
  match rows with
  | b :: ((a :: _) as rest) => segment_ok b a && rows_ok rest
  | _ => true
  end.

(** ** Auxiliary definitions for the proofs *)

Definition finite64 (v : spec_float) : bool := F64.valid v && is_finite v.

(** Finite and not zero. *)
Definition is_nonzero (x : spec_float) : bool :=
  match x with
  | S754_finite _ _ _ => true
  | _ => false
  end.

Definition round32 : Z -> Z := round_val F32.prec F32.emax.
Definition round64 : Z -> Z := round_val F64.prec F64.emax.

(** The value that stands for an infinity. *)
Definition top32 : Z := 2 ^ (F32.emax - unit_exp F32.prec F32.emax).
Definition top64 : Z := 2 ^ (F64.emax - unit_exp F64.prec F64.emax).

(** The value of the [double] 1.0. *)
Definition unit64 : Z := 2 ^ (- unit_exp F64.prec F64.emax).

(** The default row of [hd], [last] and [nth] on the table. *)
Definition origin : spec_float * spec_float := (S754_zero false, S754_zero false).

(** A transport that cannot select the address, and one that works. *)
Definition failing_transport : transport :=
  {| set_address_status := -1; write_status := -1; read_status := -1; read_bytes := [] |}.

Definition working_transport : transport :=
  {| set_address_status := 0; write_status := 20; read_status := 47;
     read_bytes := repeat 1 47 |}.

(** ** Auxiliary definitions for the further properties *)

(** The distance of a sensor that detects nothing: the sentinel plus the
    offset, [100.0f + 0.035f]. *)
Definition no_detection : spec_float := F32.add sentinel distance_from_center.

(** * Properties *)

(** The proofs about [float] and [double] computations rest on three facts of
    IEEE arithmetic, proved here from the definitions of [SpecFloat]: the
    operations return floats of the format; the comparison of two floats of
    the format is the comparison of their values; and an operation returns
    the rounding of the exact result, where rounding is monotone.  Values are
    integers, counted in units of [2 ^ unit_exp]. *)

(** ** Powers of two and digit counts *)

Lemma pow2_pos (n : Z) : 0 <= n -> 0 < 2 ^ n.
Proof. intros; apply Z.pow_pos_nonneg; lia. Qed.

Lemma pow2_split (a b : Z) : 0 <= a -> 0 <= b -> 2 ^ (a + b) = 2 ^ a * 2 ^ b.
Proof. intros; apply Z.pow_add_r; lia. Qed.

Lemma pow2_le (a b : Z) : a <= b -> 2 ^ a <= 2 ^ b.
Proof. intros; apply Z.pow_le_mono_r; lia. Qed.

Lemma pow2_lt (a b : Z) : 0 <= b -> a < b -> 2 ^ a < 2 ^ b.
Proof. intros; apply Z.pow_lt_mono_r; lia. Qed.

Lemma pow2_lt_inv (a b : Z) : 0 <= a -> 2 ^ a < 2 ^ b -> a < b.
Proof.
  intros Ha H. destruct (Z_lt_le_dec a b) as [|Hle]; [assumption|].
  apply pow2_le in Hle. lia.
Qed.

Lemma digits2_pos_bounds (m : positive) :
  2 ^ (Z.pos (digits2_pos m) - 1) <= Z.pos m < 2 ^ Z.pos (digits2_pos m).
Proof.
  induction m as [m IH|m IH|]; cbn [digits2_pos].
  - rewrite Pos2Z.inj_succ.
    replace (Z.succ (Z.pos (digits2_pos m)) - 1) with (Z.succ (Z.pos (digits2_pos m) - 1)) by lia.
    rewrite !Z.pow_succ_r by lia.
    revert IH; generalize (2 ^ (Z.pos (digits2_pos m) - 1)) (2 ^ Z.pos (digits2_pos m)); lia.
  - rewrite Pos2Z.inj_succ.
    replace (Z.succ (Z.pos (digits2_pos m)) - 1) with (Z.succ (Z.pos (digits2_pos m) - 1)) by lia.
    rewrite !Z.pow_succ_r by lia.
    revert IH; generalize (2 ^ (Z.pos (digits2_pos m) - 1)) (2 ^ Z.pos (digits2_pos m)); lia.
  - cbn. lia.
Qed.

Lemma Zdigits2_nonneg (M : Z) : 0 <= Zdigits2 M.
Proof. destruct M; cbn; lia. Qed.

Lemma Zdigits2_pos (M : Z) : 0 < M -> 0 < Zdigits2 M.
Proof. destruct M; cbn; lia. Qed.

Lemma Zdigits2_bounds (M : Z) : 0 < M -> 2 ^ (Zdigits2 M - 1) <= M < 2 ^ Zdigits2 M.
Proof. destruct M as [|m|m]; try lia. intros _. apply digits2_pos_bounds. Qed.

Lemma Zdigits2_unique (M d : Z) : 2 ^ (d - 1) <= M < 2 ^ d -> 0 < M -> Zdigits2 M = d.
Proof.
  intros H HM. pose proof (Zdigits2_bounds M HM) as HB.
  pose proof (Zdigits2_nonneg M).
  assert (0 < d).
  { destruct (Z_lt_le_dec 0 d); [assumption|].
    assert (2 ^ d <= 2 ^ 0) by (apply pow2_le; lia). cbn in *. lia. }
  pose proof (Zdigits2_pos M HM).
  assert (Zdigits2 M - 1 < d) by (apply pow2_lt_inv; lia).
  assert (d - 1 < Zdigits2 M) by (apply pow2_lt_inv; lia).
  lia.
Qed.

Lemma Zdigits2_mono (M N : Z) : 0 <= M <= N -> Zdigits2 M <= Zdigits2 N.
Proof.
  intros [H0 H]. destruct (Z.eq_dec M 0) as [->|]; [apply Zdigits2_nonneg|].
  pose proof (Zdigits2_bounds M ltac:(lia)). pose proof (Zdigits2_bounds N ltac:(lia)).
  pose proof (Zdigits2_pos M ltac:(lia)).
  assert (Zdigits2 M - 1 < Zdigits2 N) by (apply pow2_lt_inv; lia).
  lia.
Qed.

Lemma Zdigits2_shl (M k : Z) : 0 < M -> 0 <= k -> Zdigits2 (M * 2 ^ k) = Zdigits2 M + k.
Proof.
  intros HM Hk. pose proof (Zdigits2_bounds M HM). pose proof (Zdigits2_pos M HM).
  pose proof (pow2_pos k Hk).
  apply Zdigits2_unique; [|nia].
  replace (Zdigits2 M + k - 1) with (Zdigits2 M - 1 + k) by lia.
  rewrite !pow2_split by lia. nia.
Qed.

Lemma Zdigits2_shr (M n : Z) :
  0 < M -> 0 <= n -> n < Zdigits2 M -> Zdigits2 (M / 2 ^ n) = Zdigits2 M - n.
Proof.
  intros HM Hn Hlt. pose proof (Zdigits2_bounds M HM) as HB.
  pose proof (pow2_pos n Hn).
  assert (E1 : 2 ^ (Zdigits2 M - 1) = 2 ^ (Zdigits2 M - n - 1) * 2 ^ n).
  { rewrite <- pow2_split by lia. f_equal; lia. }
  assert (E2 : 2 ^ Zdigits2 M = 2 ^ (Zdigits2 M - n) * 2 ^ n).
  { rewrite <- pow2_split by lia. f_equal; lia. }
  assert (2 ^ (Zdigits2 M - n - 1) <= M / 2 ^ n).
  { apply Z.div_le_lower_bound; lia. }
  assert (M / 2 ^ n < 2 ^ (Zdigits2 M - n)).
  { apply Z.div_lt_upper_bound; lia. }
  pose proof (pow2_pos (Zdigits2 M - n - 1) ltac:(lia)).
  apply Zdigits2_unique; lia.
Qed.

Lemma Zdigits2_shr_small (M n : Z) :
  0 <= M -> Zdigits2 M <= n -> M / 2 ^ n = 0.
Proof.
  intros HM Hn. destruct (Z.eq_dec M 0) as [->|]; [reflexivity|].
  pose proof (Zdigits2_bounds M ltac:(lia)).
  pose proof (pow2_le _ _ Hn).
  apply Z.div_small. lia.
Qed.

Lemma compare_scale (a b k : Z) : 0 < k -> (a * k ?= b * k) = (a ?= b).
Proof.
  intros Hk. destruct (Z.compare_spec a b) as [->|H|H].
  - apply Z.compare_refl.
  - apply Z.compare_lt_iff. nia.
  - apply Z.compare_gt_iff. nia.
Qed.

(** ** Right shifts of a mantissa *)

Lemma iter_pos_nat {A : Type} (f : A -> A) (p : positive) (x : A) :
  iter_pos f p x = Nat.iter (Pos.to_nat p) f x.
Proof.
  revert x; induction p as [p IH|p IH|]; intros x; cbn [iter_pos].
  - rewrite !IH, Pos2Nat.inj_xI.
    replace (S (2 * Pos.to_nat p)) with (Pos.to_nat p + (Pos.to_nat p + 1))%nat by lia.
    rewrite !Nat.iter_add. reflexivity.
  - rewrite !IH, Pos2Nat.inj_xO.
    replace (2 * Pos.to_nat p)%nat with (Pos.to_nat p + Pos.to_nat p)%nat by lia.
    rewrite Nat.iter_add. reflexivity.
  - reflexivity.
Qed.

Lemma shr_1_m (mrs : shr_record) : 0 <= shr_m mrs -> shr_m (shr_1 mrs) = shr_m mrs / 2.
Proof.
  destruct mrs as [m r s]; cbn [shr_m]; intros Hm.
  rewrite <- Z.div2_div.
  destruct m as [|[p|p|]|]; try lia; reflexivity.
Qed.

Lemma shr_1_loc (m : Z) (r s : bool) :
  0 <= m ->
  loc_of_shr_record (shr_1 (Build_shr_record m r s)) =
  match Z.odd m, r || s with
  | false, false => loc_Exact
  | false, true => loc_Inexact Lt
  | true, false => loc_Inexact Eq
  | true, true => loc_Inexact Gt
  end.
Proof.
  intros Hm. destruct m as [|[p|p|]|]; try lia; cbn; destruct (r || s); reflexivity.
Qed.

(** [k] right shifts of an exact mantissa: the quotient, and the location of
    the remainder. *)
Lemma shr_iter_exact (M : Z) (k : nat) :
  0 <= M ->
  let y := Nat.iter k shr_1 (Build_shr_record M false false) in
  shr_m y = M / 2 ^ Z.of_nat k /\
  loc_of_shr_record y = loc_of_rem (M mod 2 ^ Z.of_nat k) (2 ^ Z.of_nat k).
Proof.
  intros HM. induction k as [|k IH].
  - cbn. rewrite Z.div_1_r, Z.mod_1_r. split; reflexivity.
  - cbv zeta in IH |- *. rewrite Nat.iter_succ. destruct IH as [IHm IHl].
    set (y := Nat.iter k shr_1 (Build_shr_record M false false)) in *.
    assert (H2k : 0 < 2 ^ Z.of_nat k) by (apply pow2_pos; lia).
    assert (Hq : 0 <= M / 2 ^ Z.of_nat k) by (apply Z.div_pos; lia).
    assert (HS : 2 ^ Z.of_nat (S k) = 2 ^ Z.of_nat k * 2).
    { rewrite Nat2Z.inj_succ, Z.pow_succ_r by lia. lia. }
    split.
    + rewrite shr_1_m by lia. rewrite IHm, HS, Z.div_div by lia. reflexivity.
    + destruct y as [m r s]. cbn [shr_m] in IHm. subst m.
      rewrite shr_1_loc by assumption.
      rewrite HS, Z.rem_mul_r by lia.
      pose proof (Z.mod_pos_bound M (2 ^ Z.of_nat k) H2k) as HR.
      set (R := M mod 2 ^ Z.of_nat k) in *.
      set (N := 2 ^ Z.of_nat k) in *.
      set (q := M / N) in *.
      assert (Hrs : r || s = negb (R =? 0)).
      { unfold loc_of_rem in IHl. destruct (R =? 0); destruct r, s; cbn in IHl |- *; congruence. }
      rewrite Hrs. rewrite (Zmod_odd q).
      unfold loc_of_rem.
      destruct (Z.odd q); destruct (Z.eqb_spec R 0) as [HR0|HR0]; cbn [negb].
      * replace (R + N * 1 =? 0) with false by (symmetry; apply Z.eqb_neq; lia).
        f_equal. symmetry. apply Z.compare_eq_iff. lia.
      * replace (R + N * 1 =? 0) with false by (symmetry; apply Z.eqb_neq; lia).
        f_equal. symmetry. apply Z.compare_gt_iff. lia.
      * replace (R + N * 0 =? 0) with true by (symmetry; apply Z.eqb_eq; lia).
        reflexivity.
      * replace (R + N * 0 =? 0) with false by (symmetry; apply Z.eqb_neq; lia).
        f_equal. symmetry. apply Z.compare_lt_iff. lia.
Qed.

Lemma shr_iter_m (mrs : shr_record) (k : nat) :
  0 <= shr_m mrs -> shr_m (Nat.iter k shr_1 mrs) = shr_m mrs / 2 ^ Z.of_nat k.
Proof.
  intros HM. induction k as [|k IH].
  - cbn. rewrite Z.div_1_r. reflexivity.
  - rewrite Nat.iter_succ.
    assert (H2k : 0 < 2 ^ Z.of_nat k) by (apply pow2_pos; lia).
    assert (Hq : 0 <= shr_m mrs / 2 ^ Z.of_nat k) by (apply Z.div_pos; lia).
    rewrite shr_1_m by lia.
    rewrite IH, Nat2Z.inj_succ, Z.pow_succ_r, Z.div_div by lia.
    f_equal; lia.
Qed.

(** [shr] on any record: the mantissa is divided, the exponent follows. *)
Lemma shr_m_spec (mrs : shr_record) (e n : Z) :
  0 <= shr_m mrs -> 0 <= n ->
  shr_m (fst (shr mrs e n)) = shr_m mrs / 2 ^ n /\ snd (shr mrs e n) = e + n.
Proof.
  intros HM Hn. destruct n as [|p|p]; try lia; cbn [shr fst snd].
  - rewrite Z.div_1_r. lia.
  - rewrite iter_pos_nat, shr_iter_m, positive_nat_Z by assumption. split; reflexivity.
Qed.

(** [shr] on an exact mantissa. *)
Lemma shr_exact_spec (M e n : Z) :
  0 <= M -> 0 <= n ->
  let y := fst (shr (Build_shr_record M false false) e n) in
  shr_m y = M / 2 ^ n /\
  loc_of_shr_record y = loc_of_rem (M mod 2 ^ n) (2 ^ n) /\
  snd (shr (Build_shr_record M false false) e n) = e + n.
Proof.
  intros HM Hn. destruct n as [|p|p]; try lia; cbn [shr fst snd]; cbv zeta.
  - cbn [shr_m]. rewrite Z.div_1_r, Z.mod_1_r. repeat split; lia.
  - rewrite iter_pos_nat.
    destruct (shr_iter_exact M (Pos.to_nat p) HM) as [H1 H2].
    rewrite positive_nat_Z in H1, H2. repeat split; assumption.
Qed.

(** ** Rounding a quotient to the nearest integer *)

Lemma rne_div_cases (M n : Z) :
  0 <= n ->
  let q := M / 2 ^ n in
  let r := M mod 2 ^ n in
  (rne_div M n = q /\ 2 * r <= 2 ^ n) \/ (rne_div M n = q + 1 /\ 2 ^ n <= 2 * r).
Proof.
  intros Hn. cbv zeta. unfold rne_div, loc_of_rem, round_nearest_even.
  pose proof (pow2_pos n Hn) as HN.
  pose proof (Z.mod_pos_bound M (2 ^ n) HN) as HR.
  set (R := M mod 2 ^ n) in *. set (N := 2 ^ n) in *.
  destruct (Z.eqb_spec R 0) as [HR0|HR0].
  - left; split; [reflexivity | lia].
  - destruct (Z.compare_spec (2 * R) N).
    + destruct (Z.even (M / N)); [left | right]; split; lia.
    + left; split; lia.
    + right; split; lia.
Qed.

Lemma rne_div_lower (M n t : Z) : 0 <= n -> t * 2 ^ n <= M -> t <= rne_div M n.
Proof.
  intros Hn H. pose proof (pow2_pos n Hn) as HN.
  assert (t <= M / 2 ^ n) by (apply Z.div_le_lower_bound; lia).
  destruct (rne_div_cases M n Hn) as [[-> _]|[-> _]]; lia.
Qed.

Lemma rne_div_upper (M n t : Z) : 0 <= n -> M <= t * 2 ^ n -> rne_div M n <= t.
Proof.
  intros Hn H. pose proof (pow2_pos n Hn) as HN.
  pose proof (Z.div_mod M (2 ^ n) ltac:(lia)) as HD.
  pose proof (Z.mod_pos_bound M (2 ^ n) HN) as HR.
  destruct (rne_div_cases M n Hn) as [[-> _]|[-> Hr]]; nia.
Qed.

Lemma rne_div_exact (t n : Z) : 0 <= n -> rne_div (t * 2 ^ n) n = t.
Proof.
  intros Hn. pose proof (pow2_pos n Hn) as HN.
  unfold rne_div. rewrite Z.div_mul, Z.mod_mul by lia. reflexivity.
Qed.

Lemma rne_div_mono (M M' n : Z) : 0 <= n -> M <= M' -> rne_div M n <= rne_div M' n.
Proof.
  intros Hn H. pose proof (pow2_pos n Hn) as HN.
  pose proof (Z.div_mod M (2 ^ n) ltac:(lia)) as HD.
  pose proof (Z.mod_pos_bound M (2 ^ n) HN) as HR.
  pose proof (Z.div_mod M' (2 ^ n) ltac:(lia)) as HD'.
  pose proof (Z.mod_pos_bound M' (2 ^ n) HN) as HR'.
  assert (Hq : M / 2 ^ n <= M' / 2 ^ n) by (apply Z.div_le_mono; lia).
  destruct (Z.eq_dec (M / 2 ^ n) (M' / 2 ^ n)) as [Heq|Hne].
  - assert (Hr : M mod 2 ^ n <= M' mod 2 ^ n) by nia.
    unfold rne_div, loc_of_rem, round_nearest_even. rewrite <- Heq.
    set (R := M mod 2 ^ n) in *. set (R' := M' mod 2 ^ n) in *. set (N := 2 ^ n) in *.
    destruct (Z.eqb_spec R 0), (Z.eqb_spec R' 0); try lia;
      destruct (Z.compare_spec (2 * R) N); destruct (Z.compare_spec (2 * R') N);
      destruct (Z.even (M / N)); lia.
  - destruct (rne_div_cases M n Hn) as [[-> _]|[-> _]];
      destruct (rne_div_cases M' n Hn) as [[-> _]|[-> _]]; lia.
Qed.

Lemma rne_div_nonneg (M n : Z) : 0 <= n -> 0 <= M -> 0 <= rne_div M n.
Proof. intros Hn HM. apply rne_div_lower; lia. Qed.

Lemma rne_div_scale (M n k : Z) : 0 <= n -> 0 <= k -> rne_div (M * 2 ^ k) (n + k) = rne_div M n.
Proof.
  intros Hn Hk. pose proof (pow2_pos n Hn). pose proof (pow2_pos k Hk).
  unfold rne_div. rewrite pow2_split by lia.
  rewrite Z.div_mul_cancel_r, Z.mul_mod_distr_r by lia.
  f_equal. unfold loc_of_rem.
  pose proof (Z.mod_pos_bound M (2 ^ n) ltac:(lia)).
  destruct (Z.eqb_spec (M mod 2 ^ n) 0) as [->|Hne].
  - reflexivity.
  - replace (M mod 2 ^ n * 2 ^ k =? 0) with false by (symmetry; apply Z.eqb_neq; nia).
    f_equal. rewrite Z.mul_assoc. apply compare_scale. lia.
Qed.

(** ** Alignment of a mantissa *)

Lemma shl_align_spec (mx : positive) (ex ex' : Z) :
  snd (shl_align mx ex ex') = Z.min ex ex' /\
  Z.pos (fst (shl_align mx ex ex')) = Z.pos mx * 2 ^ (ex - Z.min ex ex').
Proof.
  unfold shl_align. destruct (ex' - ex) as [|d|d] eqn:E; cbn [fst snd].
  - replace (Z.min ex ex') with ex by lia. rewrite Z.sub_diag. cbn. lia.
  - replace (Z.min ex ex') with ex by lia. rewrite Z.sub_diag. cbn. lia.
  - replace (Z.min ex ex') with ex' by lia.
    change (Pos.iter xO mx d) with (shift_pos d mx).
    rewrite shift_pos_correct. replace (ex - ex') with (Z.pos d) by lia.
    change (Z.pow_pos 2 d) with (2 ^ Z.pos d). lia.
Qed.

(** ** Rounding in a format *)

Section Format.
Variables prec emax : Z.
Hypothesis prec_pos : 0 < prec.
Hypothesis prec_lt_emax : prec < emax.

Local Notation "'emin'" := (SpecFloat.emin prec emax).
Local Notation "'fexp'" := (SpecFloat.fexp prec emax).

Lemma fexp_spec (e : Z) : fexp e = Z.max (e - prec) emin.
Proof. reflexivity. Qed.

Lemma emin_spec : emin = 3 - emax - prec.
Proof. reflexivity. Qed.

Lemma fexp_mono (a b : Z) : a <= b -> fexp a <= fexp b.
Proof. rewrite !fexp_spec; lia. Qed.

Lemma fexp_ge_emin (a : Z) : emin <= fexp a.
Proof. rewrite fexp_spec; lia. Qed.

Lemma fexp_small (a : Z) : a <= fexp a -> fexp a = emin.
Proof. rewrite !fexp_spec; lia. Qed.

Lemma binary_round_aux_eq (s : bool) (mx ex : Z) (lx : location) :
  binary_round_aux prec emax s mx ex lx =
  let S1 := shr_fexp prec emax mx ex lx in
  finish prec emax s
    (shr_fexp prec emax
       (round_nearest_even (shr_m (fst S1)) (loc_of_shr_record (fst S1)))
       (snd S1) loc_Exact).
Proof.
  unfold binary_round_aux, finish. cbv zeta.
  destruct (shr_fexp prec emax mx ex lx) as [mrs' e']. cbn [fst snd].
  destruct (shr_fexp prec emax _ e' loc_Exact) as [mrs'' e'']. reflexivity.
Qed.

Lemma shr_m_of_loc (m : Z) (l : location) : shr_m (shr_record_of_loc m l) = m.
Proof. destruct l as [|[]]; reflexivity. Qed.


Lemma round_nearest_even_cases (m : Z) (l : location) :
  round_nearest_even m l = m \/ round_nearest_even m l = m + 1.
Proof. destruct l as [|[]]; cbn; auto. destruct (Z.even m); auto. Qed.

(** First shift of [binary_round_aux], then rounding to nearest. *)
Lemma first_shift (M e : Z) (l : location) :
  0 <= M -> e <= fexp (Zdigits2 M + e) ->
  let S1 := shr_fexp prec emax M e l in
  let m1 := round_nearest_even (shr_m (fst S1)) (loc_of_shr_record (fst S1)) in
  shr_m (fst S1) = M / 2 ^ (fexp (Zdigits2 M + e) - e) /\
  snd S1 = fexp (Zdigits2 M + e) /\
  0 <= shr_m (fst S1) <= m1 /\
  snd S1 <= fexp (Zdigits2 m1 + snd S1).
Proof.
  intros HM He. cbv zeta. unfold shr_fexp.
  set (n := fexp (Zdigits2 M + e) - e).
  assert (Hn : 0 <= n) by (unfold n; lia).
  destruct (shr_m_spec (shr_record_of_loc M l) e n) as [Hm Hs];
    [rewrite shr_m_of_loc; lia | lia |].
  rewrite shr_m_of_loc in Hm. rewrite Hm, Hs.
  set (S1 := shr (shr_record_of_loc M l) e n) in *.
  pose proof (pow2_pos n Hn) as HN.
  assert (Hq : 0 <= M / 2 ^ n) by (apply Z.div_pos; lia).
  assert (Hm1 : M / 2 ^ n <= round_nearest_even (M / 2 ^ n) (loc_of_shr_record (fst S1))).
  { destruct (round_nearest_even_cases (M / 2 ^ n) (loc_of_shr_record (fst S1)))
    as [->| ->]; lia. }
  repeat split; try lia.
  replace (e + n) with (fexp (Zdigits2 M + e)) by (unfold n; lia).
  destruct (Z_lt_le_dec n (Zdigits2 M)) as [Hlt|Hge].
  - assert (0 < M) by (destruct M; cbn in Hlt; lia).
    apply fexp_mono.
    assert (Zdigits2 (M / 2 ^ n) <= Zdigits2 (round_nearest_even (M / 2 ^ n) (loc_of_shr_record (fst S1))))
      by (apply Zdigits2_mono; lia).
    rewrite Zdigits2_shr in * by lia. unfold n in *. lia.
  - rewrite (fexp_small (Zdigits2 M + e)) by (unfold n in Hge; lia).
    apply fexp_ge_emin.
Qed.

(** Second shift of [binary_round_aux]: the result is a float of the format. *)
Lemma second_shift_valid (s : bool) (m1 e1 : Z) :
  0 <= m1 -> e1 <= fexp (Zdigits2 m1 + e1) ->
  let r := finish prec emax s (shr_fexp prec emax m1 e1 loc_Exact) in
  valid_binary prec emax r = true /\ is_nan r = false /\ sign_of r = s.
Proof.
  intros Hm He. cbv zeta. unfold shr_fexp, finish.
  set (n := fexp (Zdigits2 m1 + e1) - e1).
  assert (Hn : 0 <= n) by (unfold n; lia).
  destruct (shr_m_spec (shr_record_of_loc m1 loc_Exact) e1 n) as [Hq Hs];
    [cbn; lia | lia |].
  cbn [shr_record_of_loc shr_m] in Hq, Hs |- *.
  rewrite Hs, Hq. clear Hs Hq.
  pose proof (pow2_pos n Hn) as HN.
  assert (Hq0 : 0 <= m1 / 2 ^ n) by (apply Z.div_pos; lia).
  destruct (m1 / 2 ^ n) as [|p|p] eqn:Hq;
    try lia; [repeat split; reflexivity|].
  destruct (Z.leb_spec (e1 + n) (emax - prec)); [|repeat split; reflexivity].
  repeat split. cbn [valid_binary]. unfold bounded, canonical_mantissa.
  apply andb_true_intro; split; [|apply Z.leb_le; assumption].
  apply Z.eqb_eq.
  assert (Hlt : n < Zdigits2 m1).
  { destruct (Z_lt_le_dec n (Zdigits2 m1)); [assumption|].
    rewrite Zdigits2_shr_small in Hq by lia. lia. }
  assert (0 < m1) by (destruct m1; cbn in Hlt; lia).
  change (Z.pos (digits2_pos p)) with (Zdigits2 (Z.pos p)).
  rewrite <- Hq, Zdigits2_shr by lia.
  replace (Zdigits2 m1 - n + (e1 + n)) with (Zdigits2 m1 + e1) by lia.
  unfold n. lia.
Qed.

(** [binary_round_aux] returns a float of the format, of the requested
    sign, whatever the location. *)
Lemma binary_round_aux_valid (s : bool) (M e : Z) (l : location) :
  0 <= M -> e <= fexp (Zdigits2 M + e) ->
  let r := binary_round_aux prec emax s M e l in
  valid_binary prec emax r = true /\ is_nan r = false /\ sign_of r = s.
Proof.
  intros HM He. cbv zeta. rewrite binary_round_aux_eq. cbv zeta.
  destruct (first_shift M e l HM He) as (_ & _ & H1 & H2).
  apply second_shift_valid; lia.
Qed.

Local Notation "'B'" := (unit_exp prec emax).
Local Notation "'val'" := (Zval prec emax).

Lemma unit_exp_le_emin : B <= emin.
Proof. unfold unit_exp. rewrite emin_spec. lia. Qed.

Lemma unit_exp_le_fexp (a : Z) : B <= fexp a.
Proof. pose proof unit_exp_le_emin. pose proof (fexp_ge_emin a). lia. Qed.

(** Facts on a canonical mantissa. *)
Lemma canonical_digits (m e : Z) :
  0 < m -> fexp (Zdigits2 m + e) = e ->
  emin <= e /\ Zdigits2 m <= prec /\ (emin < e -> Zdigits2 m = prec).
Proof. rewrite fexp_spec. lia. Qed.

Lemma canonical_lt_max (m e : Z) :
  0 < m -> fexp (Zdigits2 m + e) = e -> e <= emax - prec ->
  m * 2 ^ (e - B) < 2 ^ (emax - B).
Proof.
  intros Hm Hc He. destruct (canonical_digits m e Hm Hc) as (H1 & H2 & _).
  pose proof unit_exp_le_emin.
  pose proof (Zdigits2_bounds m Hm) as [_ Hb].
  pose proof (Zdigits2_pos m Hm).
  assert (2 ^ Zdigits2 m * 2 ^ (e - B) <= 2 ^ (emax - B)).
  { rewrite <- pow2_split by lia. apply pow2_le. lia. }
  pose proof (pow2_pos (e - B) ltac:(lia)). nia.
Qed.

Lemma canonical_ge_max (m e : Z) :
  0 < m -> fexp (Zdigits2 m + e) = e -> emax - prec < e ->
  2 ^ (emax - B) <= m * 2 ^ (e - B).
Proof.
  intros Hm Hc He. destruct (canonical_digits m e Hm Hc) as (H1 & H2 & H3).
  pose proof unit_exp_le_emin.
  assert (emin < e) by (rewrite emin_spec; lia).
  pose proof (Zdigits2_bounds m Hm) as [Hb _]. rewrite H3 in Hb by assumption.
  assert (2 ^ (emax - B) <= 2 ^ (prec - 1) * 2 ^ (e - B)).
  { rewrite <- pow2_split by lia. apply pow2_le. lia. }
  pose proof (pow2_pos (e - B) ltac:(lia)). nia.
Qed.

(** The second shift keeps the value when it shifts out zeros only. *)
Lemma second_shift_val (s : bool) (m1 e1 : Z) :
  0 <= m1 -> B <= e1 -> e1 <= fexp (Zdigits2 m1 + e1) ->
  (2 ^ (fexp (Zdigits2 m1 + e1) - e1) | m1) ->
  val (finish prec emax s (shr_fexp prec emax m1 e1 loc_Exact)) =
  cond_Zopp s (Z.min (m1 * 2 ^ (e1 - B)) (2 ^ (emax - B))).
Proof.
  intros Hm HB He [m2 Hdiv].
  pose proof (second_shift_valid s m1 e1 Hm He) as (Hv & _ & _).
  revert Hv. unfold shr_fexp, finish.
  set (n := fexp (Zdigits2 m1 + e1) - e1) in *.
  assert (Hn : 0 <= n) by (unfold n; lia).
  destruct (shr_m_spec (shr_record_of_loc m1 loc_Exact) e1 n) as [Hq Hs];
    [cbn; lia | lia |].
  cbn [shr_record_of_loc shr_m] in Hq, Hs |- *.
  rewrite Hs, Hq. clear Hs Hq.
  pose proof (pow2_pos n Hn) as HN.
  pose proof (pow2_pos (e1 - B) ltac:(lia)) as HE.
  pose proof (pow2_pos (emax - B) ltac:(pose proof unit_exp_le_emin; rewrite emin_spec in *; lia)) as HX.
  assert (Hm2 : m1 / 2 ^ n = m2) by (rewrite Hdiv; apply Z.div_mul; lia).
  rewrite Hm2.
  assert (Hval : m1 * 2 ^ (e1 - B) = m2 * 2 ^ (e1 + n - B)).
  { replace (e1 + n - B) with (n + (e1 - B)) by lia.
    rewrite pow2_split by lia. rewrite Hdiv. ring. }
  rewrite Hval.
  destruct m2 as [|p|p]; [| |nia].
  - intros _. cbn [Zval]. replace (Z.min _ _) with 0 by lia. destruct s; reflexivity.
  - destruct (Z.leb_spec (e1 + n) (emax - prec)) as [Hle|Hgt]; cbn [valid_binary Zval].
    + unfold bounded, canonical_mantissa. intros Hv.
      apply andb_prop in Hv. destruct Hv as [Hc _]. apply Z.eqb_eq in Hc.
      pose proof (canonical_lt_max (Z.pos p) (e1 + n) ltac:(lia) Hc Hle).
      f_equal. lia.
    + intros _. f_equal.
      assert (Hc : fexp (Zdigits2 (Z.pos p) + (e1 + n)) = e1 + n).
      { assert (Hlt : n < Zdigits2 m1).
        { destruct (Z_lt_le_dec n (Zdigits2 m1)); [assumption|].
          rewrite Zdigits2_shr_small in Hm2 by lia. lia. }
        assert (0 < m1) by (destruct m1; cbn in Hlt; lia).
        rewrite <- Hm2, Zdigits2_shr by lia.
        replace (Zdigits2 m1 - n + (e1 + n)) with (Zdigits2 m1 + e1) by lia.
        unfold n. lia. }
      pose proof (canonical_ge_max (Z.pos p) (e1 + n) ltac:(lia) Hc Hgt).
      lia.
Qed.

(** After rounding, the second shift only removes zeros. *)
Lemma rounded_divisible (M e : Z) :
  0 < M -> e <= fexp (Zdigits2 M + e) ->
  let e1 := fexp (Zdigits2 M + e) in
  let m1 := rne_div M (e1 - e) in
  (2 ^ (fexp (Zdigits2 m1 + e1) - e1) | m1).
Proof.
  intros HM He. cbv zeta.
  set (e1 := fexp (Zdigits2 M + e)). set (n1 := e1 - e).
  assert (Hn1 : 0 <= n1) by (unfold n1, e1; lia).
  pose proof (pow2_pos n1 Hn1) as HN.
  set (m1 := rne_div M n1).
  destruct (Z_lt_le_dec n1 (Zdigits2 M)) as [Hlt|Hge].
  - pose proof (Zdigits2_shr M n1 HM Hn1 Hlt) as Hd.
    assert (Hq : 0 < M / 2 ^ n1).
    { destruct (Z.eq_dec (M / 2 ^ n1) 0) as [E|]; [rewrite E in Hd; cbn in Hd; lia|].
      pose proof (Z.div_pos M (2 ^ n1) ltac:(lia) HN). lia. }
    pose proof (Zdigits2_bounds _ Hq) as Hb. rewrite Hd in Hb.
    set (d' := Zdigits2 M - n1) in *.
    assert (Hm1 : m1 = M / 2 ^ n1 \/ m1 = M / 2 ^ n1 + 1).
    { unfold m1. destruct (rne_div_cases M n1 Hn1) as [[-> _]|[-> _]]; auto. }
    destruct (Z_lt_le_dec m1 (2 ^ d')) as [Hs|Hl].
    + assert (Zdigits2 m1 = d') by (apply Zdigits2_unique; lia).
      replace (fexp (Zdigits2 m1 + e1) - e1) with 0.
      * exists m1. cbn. lia.
      * replace (Zdigits2 m1 + e1) with (Zdigits2 M + e) by (unfold d', n1 in *; lia).
        unfold e1. lia.
    + assert (Em1 : m1 = 2 ^ d') by lia.
      assert (Zdigits2 m1 = d' + 1).
      { apply Zdigits2_unique; [|lia]. rewrite Em1.
        replace (d' + 1 - 1) with d' by lia. split; [lia|]. apply pow2_lt; lia. }
      set (n2 := fexp (Zdigits2 m1 + e1) - e1).
      assert (Hn2 : 0 <= n2 <= 1).
      { unfold n2. replace (Zdigits2 m1 + e1) with (Zdigits2 M + e + 1) by (unfold d', n1 in *; lia).
        unfold e1. rewrite !fexp_spec. lia. }
      exists (2 ^ (d' - n2)). rewrite Em1, <- pow2_split by lia. f_equal. lia.
  - assert (He1 : e1 = emin) by (apply fexp_small; unfold n1, e1 in *; lia).
    assert (Hq : M / 2 ^ n1 = 0) by (apply Zdigits2_shr_small; lia).
    assert (Hm1 : m1 = 0 \/ m1 = 1).
    { destruct (rne_div_cases M n1 Hn1) as [[E _]|[E _]]; fold m1 in E; lia. }
    destruct Hm1 as [->| ->].
    + apply Z.divide_0_r.
    + replace (fexp (Zdigits2 1 + e1) - e1) with 0; [exists 1; reflexivity|].
      rewrite He1, fexp_spec. cbn [Zdigits2 digits2_pos]. lia.
Qed.

(** Rounding an exact mantissa: [binary_round_aux] computes [round_pos]. *)
Lemma binary_round_aux_val (s : bool) (M e : Z) :
  0 < M -> B <= e -> e <= fexp (Zdigits2 M + e) ->
  val (binary_round_aux prec emax s M e loc_Exact) =
  cond_Zopp s (round_pos prec emax (M * 2 ^ (e - B))).
Proof.
  intros HM HB He. rewrite binary_round_aux_eq. cbv zeta.
  pose proof (first_shift M e loc_Exact ltac:(lia) He) as (_ & _ & _ & He1).
  pose proof (rounded_divisible M e HM He) as Hdiv.
  cbv zeta in He1, Hdiv. revert He1.
  set (e1 := fexp (Zdigits2 M + e)) in *. set (n1 := e1 - e) in *.
  assert (Hn1 : 0 <= n1) by (unfold n1, e1; lia).
  destruct (shr_exact_spec M e n1 ltac:(lia) Hn1) as (Hm & Hl & Hs).
  assert (ES : shr_fexp prec emax M e loc_Exact =
               shr (Build_shr_record M false false) e n1) by reflexivity.
  rewrite ES, Hm, Hl, Hs. fold (rne_div M n1).
  replace (e + n1) with e1 by (unfold n1; lia).
  intros He1.
  assert (H1 : 0 <= rne_div M n1) by (apply rne_div_nonneg; lia).
  assert (H2 : B <= e1) by (unfold e1; apply unit_exp_le_fexp).
  rewrite (second_shift_val s (rne_div M n1) e1 H1 H2 He1 Hdiv).
  f_equal. unfold round_pos.
  pose proof (pow2_pos (e - B) ltac:(lia)).
  rewrite Zdigits2_shl by lia.
  replace (Zdigits2 M + (e - B) + B) with (Zdigits2 M + e) by lia.
  fold e1. replace (e1 - B) with (n1 + (e - B)) by (unfold n1; lia).
  rewrite rne_div_scale by lia.
  replace (e1 - B) with (n1 + (e - B)) by (unfold n1; lia).
  reflexivity.
Qed.



(** ** Rounding is monotone *)

Lemma max_val_pos : 0 < 2 ^ (emax - B).
Proof. apply pow2_pos. pose proof unit_exp_le_emin. rewrite emin_spec in *. lia. Qed.

Lemma round_pos_nonneg (X : Z) : 0 <= X -> 0 <= round_pos prec emax X.
Proof.
  intros HX. unfold round_pos.
  set (n := fexp (Zdigits2 X + B) - B).
  assert (Hn : 0 <= n) by (unfold n; pose proof (unit_exp_le_fexp (Zdigits2 X + B)); lia).
  pose proof (rne_div_nonneg X n Hn HX). pose proof (pow2_pos n Hn).
  pose proof max_val_pos. apply Z.min_glb; nia.
Qed.

Lemma round_pos_mono (X X' : Z) :
  0 < X <= X' -> round_pos prec emax X <= round_pos prec emax X'.
Proof.
  intros [H0 H]. unfold round_pos.
  apply Z.min_le_compat_r.
  assert (Hd : Zdigits2 X <= Zdigits2 X') by (apply Zdigits2_mono; lia).
  pose proof (unit_exp_le_fexp (Zdigits2 X + B)) as HB.
  pose proof (fexp_mono (Zdigits2 X + B) (Zdigits2 X' + B) ltac:(lia)) as Hf.
  pose proof (Zdigits2_bounds X H0) as [_ HbX].
  pose proof (Zdigits2_bounds X' ltac:(lia)) as [HbX' _].
  pose proof (Zdigits2_pos X H0) as HdX.
  revert HB Hf. rewrite !fexp_spec.
  set (d := Zdigits2 X) in *. set (d' := Zdigits2 X') in *.
  intros HB Hf.
  set (n := Z.max (d + B - prec) emin - B) in *.
  set (n' := Z.max (d' + B - prec) emin - B) in *.
  assert (Hn : 0 <= n) by (unfold n; lia).
  pose proof (pow2_pos n Hn) as HN.
  destruct (Z.eq_dec n n') as [<-|Hne].
  - apply Z.mul_le_mono_nonneg_r; [lia | apply rne_div_mono; lia].
  - assert (Hn' : n' = d' - prec) by (unfold n, n' in *; lia).
    assert (Hlt : n < n') by (unfold n, n' in *; lia).
    assert (Hdd : d < d') by (unfold n, n' in *; lia).
    pose proof (pow2_pos n' ltac:(lia)) as HN'.
    transitivity (2 ^ (d' - 1)).
    + assert (E : 2 ^ (d' - 1) = 2 ^ (d' - 1 - n) * 2 ^ n).
      { rewrite <- pow2_split by lia. f_equal; lia. }
      assert (2 ^ d <= 2 ^ (d' - 1)) by (apply pow2_le; lia).
      pose proof (rne_div_upper X n (2 ^ (d' - 1 - n)) Hn ltac:(lia)).
      rewrite E. apply Z.mul_le_mono_nonneg_r; lia.
    + assert (E : 2 ^ (d' - 1) = 2 ^ (d' - 1 - n') * 2 ^ n').
      { rewrite <- pow2_split by lia. f_equal; lia. }
      pose proof (rne_div_lower X' n' (2 ^ (d' - 1 - n')) ltac:(lia) ltac:(lia)).
      rewrite E. apply Z.mul_le_mono_nonneg_r; lia.
Qed.

Lemma round_val_signed (s : bool) (P : Z) :
  0 < P -> round_val prec emax (cond_Zopp s P) = cond_Zopp s (round_pos prec emax P).
Proof. destruct P as [|p|p]; try lia. intros _. destruct s; reflexivity. Qed.

Lemma round_val_opp (X : Z) : round_val prec emax (- X) = - round_val prec emax X.
Proof. destruct X; cbn; lia. Qed.

Lemma round_val_mono (X X' : Z) : X <= X' -> round_val prec emax X <= round_val prec emax X'.
Proof.
  intros H.
  destruct X as [|p|p], X' as [|p'|p']; try lia; cbn [round_val];
    try (pose proof (round_pos_nonneg (Z.pos p) ltac:(lia)));
    try (pose proof (round_pos_nonneg (Z.pos p') ltac:(lia))); try lia.
  - apply round_pos_mono; lia.
  - pose proof (round_pos_mono (Z.pos p') (Z.pos p) ltac:(lia)). lia.
Qed.

(** ** Floats of the format *)

Lemma valid_finite (s : bool) (m : positive) (e : Z) :
  valid_binary prec emax (S754_finite s m e) = true ->
  fexp (Zdigits2 (Z.pos m) + e) = e /\ e <= emax - prec.
Proof.
  cbn [valid_binary]. unfold bounded, canonical_mantissa. intros H.
  apply andb_prop in H. destruct H as [H1 H2].
  apply Z.eqb_eq in H1. apply Z.leb_le in H2. split; assumption.
Qed.

Lemma valid_finite_val (s : bool) (m : positive) (e : Z) :
  valid_binary prec emax (S754_finite s m e) = true ->
  B <= e /\ 0 < Z.pos m * 2 ^ (e - B) < 2 ^ (emax - B).
Proof.
  intros H. destruct (valid_finite s m e H) as [Hc He].
  destruct (canonical_digits (Z.pos m) e ltac:(lia) Hc) as (H1 & _).
  pose proof unit_exp_le_emin.
  pose proof (canonical_lt_max (Z.pos m) e ltac:(lia) Hc He).
  pose proof (pow2_pos (e - B) ltac:(lia)).
  repeat split; try lia.
Qed.

(** A float of the format is its own rounding. *)
Lemma round_val_of_val (x : spec_float) :
  valid_binary prec emax x = true -> round_val prec emax (val x) = val x.
Proof.
  destruct x as [s|s| |s m e]; intros Hv; try reflexivity.
  - cbn [Zval]. rewrite round_val_signed by apply max_val_pos. f_equal.
    unfold round_pos. apply Z.min_r.
    pose proof max_val_pos as HX.
    set (X := 2 ^ (emax - B)) in *.
    set (n := fexp (Zdigits2 X + B) - B).
    assert (Hn : 0 <= n) by (unfold n; pose proof (unit_exp_le_fexp (Zdigits2 X + B)); lia).
    pose proof (pow2_pos n Hn).
    pose proof (Z.div_mod X (2 ^ n) ltac:(lia)).
    pose proof (Z.mod_pos_bound X (2 ^ n) ltac:(lia)).
    destruct (rne_div_cases X n Hn) as [[-> Hr]|[-> Hr]]; [|nia].
    assert (n <= emax - B).
    { unfold n. rewrite fexp_spec.
      assert (Zdigits2 X = emax - B + 1).
      { apply Zdigits2_unique; [|lia]. unfold X.
        replace (emax - B + 1 - 1) with (emax - B) by lia.
        split; [lia|]. apply pow2_lt; pose proof unit_exp_le_emin; rewrite emin_spec in *; lia. }
      pose proof unit_exp_le_emin. rewrite emin_spec in *. lia. }
    assert (E : X = 2 ^ (emax - B - n) * 2 ^ n).
    { unfold X. rewrite <- pow2_split by lia. f_equal; lia. }
    rewrite E at 2. rewrite Z.div_mul by lia. lia.
  - destruct (valid_finite s m e Hv) as [Hc He].
    destruct (valid_finite_val s m e Hv) as (HB & HP0 & HP1).
    cbn [Zval]. rewrite round_val_signed by lia. f_equal.
    unfold round_pos.
    pose proof (pow2_pos (e - B) ltac:(lia)).
    rewrite Zdigits2_shl by lia.
    replace (Zdigits2 (Z.pos m) + (e - B) + B) with (Zdigits2 (Z.pos m) + e) by lia.
    rewrite Hc, rne_div_exact by lia. lia.
Qed.

(** Comparison of floats of the format is comparison of values. *)
Lemma lex_compare (m1 m2 : positive) (e1 e2 : Z) :
  fexp (Zdigits2 (Z.pos m1) + e1) = e1 ->
  fexp (Zdigits2 (Z.pos m2) + e2) = e2 ->
  match e1 ?= e2 with
  | Lt => Lt
  | Gt => Gt
  | Eq => Pos.compare_cont Eq m1 m2
  end = (Z.pos m1 * 2 ^ (e1 - B) ?= Z.pos m2 * 2 ^ (e2 - B)).
Proof.
  intros H1 H2.
  destruct (canonical_digits (Z.pos m1) e1 ltac:(lia) H1) as (A1 & B1 & C1).
  destruct (canonical_digits (Z.pos m2) e2 ltac:(lia) H2) as (A2 & B2 & C2).
  pose proof unit_exp_le_emin.
  pose proof (Zdigits2_bounds (Z.pos m1) ltac:(lia)) as [L1 U1].
  pose proof (Zdigits2_bounds (Z.pos m2) ltac:(lia)) as [L2 U2].
  pose proof (Zdigits2_pos (Z.pos m1) ltac:(lia)).
  pose proof (Zdigits2_pos (Z.pos m2) ltac:(lia)).
  pose proof (pow2_pos (e1 - B) ltac:(lia)).
  pose proof (pow2_pos (e2 - B) ltac:(lia)).
  destruct (Z.compare_spec e1 e2) as [->|Hlt|Hgt].
  - rewrite compare_scale by lia. reflexivity.
  - symmetry. apply Z.compare_lt_iff.
    rewrite C2 in L2 by lia.
    assert (2 ^ Zdigits2 (Z.pos m1) * 2 ^ (e1 - B) <= 2 ^ (prec - 1) * 2 ^ (e2 - B)).
    { rewrite <- !pow2_split by lia. apply pow2_le. lia. }
    nia.
  - symmetry. apply Z.compare_gt_iff.
    rewrite C1 in L1 by lia.
    assert (2 ^ Zdigits2 (Z.pos m2) * 2 ^ (e2 - B) <= 2 ^ (prec - 1) * 2 ^ (e1 - B)).
    { rewrite <- !pow2_split by lia. apply pow2_le. lia. }
    nia.
Qed.

Lemma SFcompare_val (x y : spec_float) :
  valid_binary prec emax x = true -> valid_binary prec emax y = true ->
  is_nan x = false -> is_nan y = false ->
  SFcompare x y = Some (val x ?= val y).
Proof.
  intros Hx Hy Nx Ny. pose proof max_val_pos as HX.
  destruct x as [sx|sx| |sx mx ex]; try discriminate Nx;
    destruct y as [sy|sy| |sy my ey]; try discriminate Ny;
    try (destruct (valid_finite_val sx mx ex Hx) as (? & ? & ?));
    try (destruct (valid_finite_val sy my ey Hy) as (? & ? & ?));
    cbn [SFcompare Zval]; f_equal; symmetry.
  - destruct sy; cbn [cond_Zopp]; [apply Z.compare_gt_iff | apply Z.compare_lt_iff]; lia.
  - destruct sy; cbn [cond_Zopp]; [apply Z.compare_gt_iff | apply Z.compare_lt_iff]; lia.
  - destruct sx; cbn [cond_Zopp]; [apply Z.compare_lt_iff | apply Z.compare_gt_iff]; lia.
  - destruct sx, sy; cbn [cond_Zopp];
      [apply Z.compare_eq_iff | apply Z.compare_lt_iff | apply Z.compare_gt_iff | apply Z.compare_eq_iff]; lia.
  - destruct sx; cbn [cond_Zopp]; [apply Z.compare_lt_iff | apply Z.compare_gt_iff];
      destruct sy; cbn [cond_Zopp]; lia.
  - destruct sx; cbn [cond_Zopp]; [apply Z.compare_lt_iff | apply Z.compare_gt_iff]; lia.
  - destruct sy; cbn [cond_Zopp]; [apply Z.compare_gt_iff | apply Z.compare_lt_iff];
      destruct sx; cbn [cond_Zopp]; lia.
  - destruct (valid_finite sx mx ex Hx) as [Cx _].
    destruct (valid_finite sy my ey Hy) as [Cy _].
    destruct sx, sy; cbn [cond_Zopp].
    + rewrite Z.compare_opp.
      rewrite <- (lex_compare my mx ey ex Cy Cx).
      rewrite (Z.compare_antisym ex ey), (Pos.compare_cont_antisym mx my Eq).
      destruct (ex ?= ey); reflexivity.
    + apply Z.compare_lt_iff; lia.
    + apply Z.compare_gt_iff; lia.
    + symmetry. apply lex_compare; assumption.
Qed.

Lemma SFleb_val (x y : spec_float) :
  valid_binary prec emax x = true -> valid_binary prec emax y = true ->
  is_nan x = false -> is_nan y = false ->
  SFleb x y = (val x <=? val y).
Proof.
  intros Hx Hy Nx Ny. unfold SFleb, Z.leb. rewrite SFcompare_val by assumption.
  destruct (val x ?= val y); reflexivity.
Qed.

Lemma SFltb_val (x y : spec_float) :
  valid_binary prec emax x = true -> valid_binary prec emax y = true ->
  is_nan x = false -> is_nan y = false ->
  SFltb x y = (val x <? val y).
Proof.
  intros Hx Hy Nx Ny. unfold SFltb, Z.ltb. rewrite SFcompare_val by assumption.
  destruct (val x ?= val y); reflexivity.
Qed.


(** ** The operations, on values *)

Lemma is_finite_bound (x : spec_float) :
  valid_binary prec emax x = true -> is_finite x = true ->
  - 2 ^ (emax - B) < val x < 2 ^ (emax - B).
Proof.
  pose proof max_val_pos.
  destruct x as [s|s| |s m e]; try discriminate; intros Hv _; cbn [Zval]; [lia|].
  destruct (valid_finite_val s m e Hv) as (_ & ? & ?). destruct s; cbn [cond_Zopp]; lia.
Qed.

Lemma bound_is_finite (x : spec_float) :
  is_nan x = false -> - 2 ^ (emax - B) < val x < 2 ^ (emax - B) -> is_finite x = true.
Proof.
  destruct x as [s|s| |s m e]; try discriminate; try reflexivity.
  intros _. cbn [Zval]. destruct s; cbn [cond_Zopp]; lia.
Qed.

(** [binary_round]: rounding of [m * 2 ^ e]. *)
Lemma binary_round_val (s : bool) (m : positive) (e : Z) :
  B <= e ->
  let r := binary_round prec emax s m e in
  valid_binary prec emax r = true /\ is_nan r = false /\ sign_of r = s /\
  val r = cond_Zopp s (round_pos prec emax (Z.pos m * 2 ^ (e - B))).
Proof.
  intros HB. cbv zeta. unfold binary_round.
  pose proof (shl_align_spec m e (fexp (Z.pos (digits2_pos m) + e))) as [Hs Hm].
  destruct (shl_align m e (fexp (Z.pos (digits2_pos m) + e))) as [mz ez].
  cbn [fst snd] in Hs, Hm.
  change (Z.pos (digits2_pos m)) with (Zdigits2 (Z.pos m)) in *.
  pose proof (unit_exp_le_fexp (Zdigits2 (Z.pos m) + e)) as HBf.
  assert (Hez : B <= ez <= e) by lia.
  pose proof (pow2_pos (e - ez) ltac:(lia)).
  assert (Hd : Zdigits2 (Z.pos mz) + ez = Zdigits2 (Z.pos m) + e).
  { rewrite Hm, Hs, Zdigits2_shl by lia. lia. }
  assert (Hpre : ez <= fexp (Zdigits2 (Z.pos mz) + ez)) by (rewrite Hd; lia).
  destruct (binary_round_aux_valid s (Z.pos mz) ez loc_Exact ltac:(lia) Hpre) as (V & N & S).
  repeat split; try assumption.
  rewrite binary_round_aux_val by (assumption || lia).
  f_equal. f_equal. rewrite Hm, Hs, <- Z.mul_assoc, <- pow2_split by lia.
  f_equal. f_equal. lia.
Qed.

(** [binary_normalize]: rounding of [M * 2 ^ e]. *)
Lemma binary_normalize_val (M e : Z) (sz : bool) :
  B <= e ->
  let r := binary_normalize prec emax M e sz in
  valid_binary prec emax r = true /\ is_nan r = false /\
  val r = round_val prec emax (M * 2 ^ (e - B)).
Proof.
  intros HB. cbv zeta. pose proof (pow2_pos (e - B) ltac:(lia)).
  destruct M as [|m|m]; cbn [binary_normalize].
  - repeat split.
  - destruct (binary_round_val false m e HB) as (V & N & _ & E).
    repeat split; try assumption. rewrite E.
    symmetry. apply (round_val_signed false). lia.
  - destruct (binary_round_val true m e HB) as (V & N & _ & E).
    repeat split; try assumption. rewrite E.
    change (Z.neg m * 2 ^ (e - B)) with (cond_Zopp true (Z.pos m) * 2 ^ (e - B)).
    replace (cond_Zopp true (Z.pos m) * 2 ^ (e - B))
      with (cond_Zopp true (Z.pos m * 2 ^ (e - B))) by (cbn [cond_Zopp]; lia).
    symmetry. apply round_val_signed. lia.
Qed.

Lemma aligned_val (s : bool) (m : positive) (e ez : Z) :
  B <= ez <= e ->
  cond_Zopp s (Z.pos (fst (shl_align m e ez))) * 2 ^ (ez - B) =
  cond_Zopp s (Z.pos m * 2 ^ (e - B)).
Proof.
  intros H. destruct (shl_align_spec m e ez) as [_ Hm]. rewrite Hm.
  replace (Z.min e ez) with ez by lia.
  replace (e - B) with (e - ez + (ez - B)) by lia.
  rewrite pow2_split by lia. destruct s; cbn [cond_Zopp]; lia.
Qed.

Lemma SFadd_val (x y : spec_float) :
  valid_binary prec emax x = true -> valid_binary prec emax y = true ->
  is_finite x = true -> is_finite y = true ->
  let r := SFadd prec emax x y in
  valid_binary prec emax r = true /\ is_nan r = false /\
  val r = round_val prec emax (val x + val y).
Proof.
  intros Vx Vy Fx Fy. cbv zeta.
  destruct x as [sx|sx| |sx mx ex]; try discriminate Fx;
    destruct y as [sy|sy| |sy my ey]; try discriminate Fy.
  - destruct sx, sy; repeat split.
  - cbn [SFadd]. repeat split; try assumption.
    rewrite Z.add_0_l. symmetry. apply round_val_of_val. assumption.
  - cbn [SFadd]. repeat split; try assumption.
    change (val (S754_zero sy)) with 0. rewrite Z.add_0_r.
    symmetry. apply round_val_of_val. assumption.
  - cbn [SFadd].
    destruct (valid_finite_val sx mx ex Vx) as (Bx & _).
    destruct (valid_finite_val sy my ey Vy) as (By & _).
    set (ez := Z.min ex ey).
    destruct (binary_normalize_val
                (cond_Zopp sx (Z.pos (fst (shl_align mx ex ez))) +
                 cond_Zopp sy (Z.pos (fst (shl_align my ey ez)))) ez false ltac:(lia))
      as (V & N & E).
    repeat split; try assumption. rewrite E. f_equal.
    rewrite Z.mul_add_distr_r, !aligned_val by lia. reflexivity.
Qed.

Lemma SFsub_val (x y : spec_float) :
  valid_binary prec emax x = true -> valid_binary prec emax y = true ->
  is_finite x = true -> is_finite y = true ->
  let r := SFsub prec emax x y in
  valid_binary prec emax r = true /\ is_nan r = false /\
  val r = round_val prec emax (val x - val y).
Proof.
  intros Vx Vy Fx Fy. cbv zeta.
  destruct x as [sx|sx| |sx mx ex]; try discriminate Fx;
    destruct y as [sy|sy| |sy my ey]; try discriminate Fy.
  - destruct sx, sy; repeat split.
  - cbn [SFsub]. repeat split; try assumption.
    change (val (S754_zero sx)) with 0. rewrite Z.sub_0_l, round_val_opp.
    rewrite (round_val_of_val _ Vy). cbn [Zval]. destruct sy; cbn [cond_Zopp negb]; lia.
  - cbn [SFsub]. repeat split; try assumption.
    change (val (S754_zero sy)) with 0. rewrite Z.sub_0_r.
    symmetry. apply round_val_of_val. assumption.
  - cbn [SFsub].
    destruct (valid_finite_val sx mx ex Vx) as (Bx & _).
    destruct (valid_finite_val sy my ey Vy) as (By & _).
    set (ez := Z.min ex ey).
    destruct (binary_normalize_val
                (cond_Zopp sx (Z.pos (fst (shl_align mx ex ez))) -
                 cond_Zopp sy (Z.pos (fst (shl_align my ey ez)))) ez false ltac:(lia))
      as (V & N & E).
    repeat split; try assumption. rewrite E. f_equal.
    rewrite Z.mul_sub_distr_r, !aligned_val by lia. reflexivity.
Qed.


Lemma Zdigits2_lower (q k : Z) : 0 <= q -> 2 ^ (k - 1) <= q -> 0 < k -> k <= Zdigits2 q.
Proof.
  intros Hq H Hk. pose proof (pow2_pos (k - 1) ltac:(lia)).
  pose proof (Zdigits2_bounds q ltac:(lia)) as [_ Hb].
  assert (k - 1 < Zdigits2 q) by (apply pow2_lt_inv; lia). lia.
Qed.

Lemma Zdigits2_mul (a b : Z) : 0 < a -> 0 < b -> Zdigits2 a + Zdigits2 b - 1 <= Zdigits2 (a * b).
Proof.
  intros Ha Hb.
  pose proof (Zdigits2_bounds a Ha) as [La _]. pose proof (Zdigits2_bounds b Hb) as [Lb _].
  pose proof (Zdigits2_pos a Ha). pose proof (Zdigits2_pos b Hb).
  pose proof (pow2_pos (Zdigits2 a - 1) ltac:(lia)).
  pose proof (pow2_pos (Zdigits2 b - 1) ltac:(lia)).
  apply Zdigits2_lower; [nia| |lia].
  replace (Zdigits2 a + Zdigits2 b - 1 - 1) with (Zdigits2 a - 1 + (Zdigits2 b - 1)) by lia.
  rewrite pow2_split by lia. nia.
Qed.

Lemma SFmul_val (x y : spec_float) :
  valid_binary prec emax x = true -> valid_binary prec emax y = true ->
  is_finite x = true -> is_finite y = true ->
  let r := SFmul prec emax x y in
  valid_binary prec emax r = true /\ is_nan r = false /\
  val r = round_val prec emax (val x * val y / 2 ^ (- B)).
Proof.
  intros Vx Vy Fx Fy. cbv zeta.
  pose proof unit_exp_le_emin as HBe.
  assert (HB0 : B <= 0) by (unfold unit_exp; rewrite emin_spec; lia).
  pose proof (pow2_pos (- B) ltac:(lia)) as HK.
  destruct x as [sx|sx| |sx mx ex]; try discriminate Fx;
    destruct y as [sy|sy| |sy my ey]; try discriminate Fy;
    cbn [SFmul]; try (cbn [Zval]; rewrite ?Z.mul_0_l, ?Z.mul_0_r, Z.div_0_l by lia; repeat split).
  destruct (valid_finite sx mx ex Vx) as [Cx _].
  destruct (valid_finite sy my ey Vy) as [Cy _].
  destruct (valid_finite_val sx mx ex Vx) as (Bx & Px & _).
  destruct (valid_finite_val sy my ey Vy) as (By & Py & _).
  destruct (canonical_digits (Z.pos mx) ex ltac:(lia) Cx) as (Ex & Dx & Nx).
  destruct (canonical_digits (Z.pos my) ey ltac:(lia) Cy) as (Ey & Dy & Ny).
  pose proof (Zdigits2_mul (Z.pos mx) (Z.pos my) ltac:(lia) ltac:(lia)) as Hd.
  pose proof (Zdigits2_pos (Z.pos mx) ltac:(lia)).
  pose proof (Zdigits2_pos (Z.pos my) ltac:(lia)).
  rewrite Pos2Z.inj_mul.
  assert (Hpre : ex + ey <= fexp (Zdigits2 (Z.pos mx * Z.pos my) + (ex + ey))).
  { rewrite fexp_spec. rewrite emin_spec in *. unfold unit_exp in *.
    destruct (Z.eq_dec ex (3 - emax - prec)), (Z.eq_dec ey (3 - emax - prec)); lia. }
  assert (HBe2 : B <= ex + ey) by (unfold unit_exp in *; lia).
  destruct (binary_round_aux_valid (xorb sx sy) (Z.pos mx * Z.pos my) (ex + ey) loc_Exact
              ltac:(lia) Hpre) as (V & N & _).
  repeat split; try assumption.
  rewrite binary_round_aux_val by (assumption || lia).
  pose proof (pow2_pos (ex + ey - B) ltac:(lia)).
  rewrite <- round_val_signed by nia. f_equal.
  cbn [Zval].
  assert (E : cond_Zopp sx (Z.pos mx * 2 ^ (ex - B)) * cond_Zopp sy (Z.pos my * 2 ^ (ey - B))
              = cond_Zopp (xorb sx sy) (Z.pos mx * Z.pos my * 2 ^ (ex + ey - B)) * 2 ^ (- B)).
  { replace (cond_Zopp (xorb sx sy) (Z.pos mx * Z.pos my * 2 ^ (ex + ey - B)) * 2 ^ (- B))
      with (cond_Zopp (xorb sx sy) (Z.pos mx * Z.pos my * (2 ^ (ex + ey - B) * 2 ^ (- B))))
      by (destruct sx, sy; cbn [xorb cond_Zopp]; lia).
    rewrite <- pow2_split by lia.
    replace (ex + ey - B + - B) with ((ex - B) + (ey - B)) by lia.
    rewrite pow2_split by lia.
    destruct sx, sy; cbn [xorb cond_Zopp]; lia. }
  rewrite E, Z.div_mul by lia. reflexivity.
Qed.

(** The quotient and exponent that [SFdiv] hands to the rounding. *)
Lemma SFdiv_core_binary_spec (m1 m2 : positive) (e1 e2 : Z) :
  let '(q, e', l) := SFdiv_core_binary prec emax (Z.pos m1) e1 (Z.pos m2) e2 in
  0 <= q /\ e' <= fexp (Zdigits2 q + e').
Proof.
  unfold SFdiv_core_binary.
  set (d1 := Zdigits2 (Z.pos m1)). set (d2 := Zdigits2 (Z.pos m2)).
  set (e' := Z.min (fexp (d1 + e1 - (d2 + e2))) (e1 - e2)).
  set (s := e1 - e2 - e').
  assert (Hs : 0 <= s) by (unfold s, e'; lia).
  set (m' := match s with Z.pos _ => Z.shiftl (Z.pos m1) s | Z0 => Z.pos m1 | Z.neg _ => 0 end).
  assert (Hm' : m' = Z.pos m1 * 2 ^ s).
  { unfold m'. clear m'. revert Hs. generalize s. clear s.
    intros [|p|p] Hs; try lia.
    rewrite Z.shiftl_mul_pow2 by lia. reflexivity. }
  pose proof (Z_div_mod m' (Z.pos m2) ltac:(lia)) as HD.
  destruct (Z.div_eucl m' (Z.pos m2)) as [q r]. destruct HD as [HD Hr].
  pose proof (pow2_pos s Hs) as HS.
  assert (Hq : 0 <= q) by nia.
  split; [assumption|].
  pose proof (Zdigits2_bounds (Z.pos m1) ltac:(lia)) as [L1 _]. fold d1 in L1.
  pose proof (Zdigits2_bounds (Z.pos m2) ltac:(lia)) as [_ U2]. fold d2 in U2.
  pose proof (Zdigits2_pos (Z.pos m1) ltac:(lia)) as P1. fold d1 in P1.
  pose proof (Zdigits2_pos (Z.pos m2) ltac:(lia)) as P2. fold d2 in P2.
  assert (Hdq : d1 + s - d2 <= Zdigits2 q).
  { destruct (Z_le_gt_dec (d1 + s - d2) 0) as [|Hpos]; [pose proof (Zdigits2_nonneg q); lia|].
    apply Zdigits2_lower; [assumption| |lia].
    assert (E : 2 ^ (d1 - 1 + s) = 2 ^ (d1 + s - d2 - 1) * 2 ^ d2).
    { rewrite <- pow2_split by lia. f_equal; lia. }
    assert (2 ^ (d1 - 1 + s) <= m').
    { rewrite Hm', pow2_split by lia. nia. }
    pose proof (pow2_pos (d1 + s - d2 - 1) ltac:(lia)).
    nia. }
  transitivity (fexp (d1 + e1 - (d2 + e2))); [unfold e'; lia|].
  apply fexp_mono. unfold s in Hdq. lia.
Qed.

(** [SFdiv] always returns a float of the format. *)
Lemma SFdiv_valid (x y : spec_float) : valid_binary prec emax (SFdiv prec emax x y) = true.
Proof.
  destruct x as [sx|sx| |sx mx ex]; destruct y as [sy|sy| |sy my ey]; try reflexivity.
  cbn [SFdiv].
  pose proof (SFdiv_core_binary_spec mx my ex ey) as H.
  destruct (SFdiv_core_binary prec emax (Z.pos mx) ex (Z.pos my) ey) as [[q e'] l].
  destruct H as [Hq He].
  apply (binary_round_aux_valid (xorb sx sy) q e' l Hq He).
Qed.

(** Dividing by a finite number other than zero never gives a NaN. *)
Lemma SFdiv_not_nan (x : spec_float) (sy : bool) (my : positive) (ey : Z) :
  is_nan x = false -> is_nan (SFdiv prec emax x (S754_finite sy my ey)) = false.
Proof.
  destruct x as [sx|sx| |sx mx ex]; try discriminate; try reflexivity.
  intros _. cbn [SFdiv].
  pose proof (SFdiv_core_binary_spec mx my ex ey) as H.
  destruct (SFdiv_core_binary prec emax (Z.pos mx) ex (Z.pos my) ey) as [[q e'] l].
  destruct H as [Hq He].
  apply (binary_round_aux_valid (xorb sx sy) q e' l Hq He).
Qed.
End Format.

(** ** The distance model: interpolation between two rows *)

Lemma prec32_pos : 0 < F32.prec.
Proof. reflexivity. Qed.

Lemma prec32_lt_emax : F32.prec < F32.emax.
Proof. reflexivity. Qed.

Lemma finite32_iff (x : spec_float) :
  finite32 x = true <-> F32.valid x = true /\ is_finite x = true.
Proof. unfold finite32. apply andb_true_iff. Qed.

Lemma is_finite_not_nan (x : spec_float) : is_finite x = true -> is_nan x = false.
Proof. destruct x; cbn; congruence. Qed.

Lemma round32_mono (X Y : Z) : X <= Y -> round32 X <= round32 Y.
Proof. apply round_val_mono; [exact prec32_pos | exact prec32_lt_emax]. Qed.

Lemma round32_id (x : spec_float) : F32.valid x = true -> round32 (val32 x) = val32 x.
Proof. apply round_val_of_val; [exact prec32_pos | exact prec32_lt_emax]. Qed.

Lemma finite32_bound (x : spec_float) : finite32 x = true -> - top32 < val32 x < top32.
Proof.
  intros H. apply finite32_iff in H. destruct H as [V F].
  apply is_finite_bound; [exact prec32_pos | exact prec32_lt_emax | exact V | exact F].
Qed.

Lemma bound32_finite (x : spec_float) :
  F32.valid x = true -> is_nan x = false -> - top32 < val32 x < top32 -> finite32 x = true.
Proof.
  intros V N H. apply finite32_iff. split; [exact V|].
  apply (bound_is_finite F32.prec F32.emax); assumption.
Qed.

Lemma leb32_val (x y : spec_float) :
  F32.valid x = true -> F32.valid y = true -> is_nan x = false -> is_nan y = false ->
  F32.leb x y = (val32 x <=? val32 y).
Proof. apply SFleb_val; [exact prec32_pos | exact prec32_lt_emax]. Qed.

Lemma ltb32_val (x y : spec_float) :
  F32.valid x = true -> F32.valid y = true -> is_nan x = false -> is_nan y = false ->
  F32.ltb x y = (val32 x <? val32 y).
Proof. apply SFltb_val; [exact prec32_pos | exact prec32_lt_emax]. Qed.

Lemma sub32_val (x y : spec_float) :
  finite32 x = true -> finite32 y = true ->
  F32.valid (F32.sub x y) = true /\ is_nan (F32.sub x y) = false /\
  val32 (F32.sub x y) = round32 (val32 x - val32 y).
Proof.
  intros Hx Hy. apply finite32_iff in Hx, Hy. destruct Hx, Hy.
  apply (SFsub_val F32.prec F32.emax prec32_pos prec32_lt_emax); assumption.
Qed.

Lemma add32_val (x y : spec_float) :
  finite32 x = true -> finite32 y = true ->
  F32.valid (F32.add x y) = true /\ is_nan (F32.add x y) = false /\
  val32 (F32.add x y) = round32 (val32 x + val32 y).
Proof.
  intros Hx Hy. apply finite32_iff in Hx, Hy. destruct Hx, Hy.
  apply (SFadd_val F32.prec F32.emax prec32_pos prec32_lt_emax); assumption.
Qed.

Lemma mul32_val (x y : spec_float) :
  finite32 x = true -> finite32 y = true ->
  F32.valid (F32.mul x y) = true /\ is_nan (F32.mul x y) = false /\
  val32 (F32.mul x y) =
  round32 (val32 x * val32 y / 2 ^ (- unit_exp F32.prec F32.emax)).
Proof.
  intros Hx Hy. apply finite32_iff in Hx, Hy. destruct Hx, Hy.
  apply (SFmul_val F32.prec F32.emax prec32_pos prec32_lt_emax); assumption.
Qed.

(** A comparison that holds excludes NaN. *)
Lemma SFleb_not_nan (x y : spec_float) :
  SFleb x y = true -> is_nan x = false /\ is_nan y = false.
Proof. destruct x, y; cbn; intros H; try discriminate H; split; reflexivity. Qed.

Lemma SFltb_not_nan (x y : spec_float) :
  SFltb x y = true -> is_nan x = false /\ is_nan y = false.
Proof. destruct x, y; cbn; intros H; try discriminate H; split; reflexivity. Qed.

Lemma interpolate_eq (b a : spec_float * spec_float) (x : spec_float) :
  interpolate b a x = F32.add (F32.mul (slope b a) (F32.sub x (snd a))) (fst a).
Proof. reflexivity. Qed.

Lemma segment_ok_facts (b a : spec_float * spec_float) :
  segment_ok b a = true ->
  (finite32 (fst b) = true /\ finite32 (snd b) = true /\
   finite32 (fst a) = true /\ finite32 (snd a) = true /\
   finite32 (slope b a) = true /\
   finite32 (F32.sub (snd b) (snd a)) = true /\
   finite32 (F32.mul (slope b a) (F32.sub (snd b) (snd a))) = true) /\
  val32 (slope b a) <= 0 /\
  0 <= val32 (snd a) /\
  val32 (snd a) < val32 (snd b) /\
  val32 (fst b) <= val32 (fst a) /\
  val32 (fst b) <= val32 (interpolate b a (snd b)).
Proof.
  unfold segment_ok. cbv zeta. rewrite !andb_true_iff. cbn [forallb].
  rewrite !andb_true_iff, !Z.leb_le, Z.ltb_lt. tauto.
Qed.

(** On the interval of two consecutive rows the interpolation is finite, lies
    between the two distances, and does not increase with the intensity. *)
Lemma segment_spec (b a : spec_float * spec_float) (x1 x2 : spec_float) :
  segment_ok b a = true ->
  F32.valid x1 = true -> F32.valid x2 = true ->
  is_nan x1 = false -> is_nan x2 = false ->
  val32 (snd a) < val32 x1 -> val32 x1 <= val32 x2 -> val32 x2 <= val32 (snd b) ->
  finite32 (interpolate b a x1) = true /\ finite32 (interpolate b a x2) = true /\
  val32 (fst b) <= val32 (interpolate b a x2) /\
  val32 (interpolate b a x2) <= val32 (interpolate b a x1) /\
  val32 (interpolate b a x1) <= val32 (fst a).
Proof.
  intros Hok V1 V2 N1 N2 Hlo H12 Hhi.
  destruct (segment_ok_facts b a Hok)
    as ((Fby & Fbx & Fay & Fax & Fc & Ftop & Fmt) & Hc & Hax & Hab & Hy & Hend).
  rewrite !interpolate_eq in *.
  pose proof (finite32_bound _ Fbx) as Bbx. pose proof (finite32_bound _ Fax) as Bax.
  pose proof (finite32_bound _ Ftop) as Btop. pose proof (finite32_bound _ Fmt) as Bmt.
  pose proof (finite32_bound _ Fay) as Bay. pose proof (finite32_bound _ Fby) as Bby.
  assert (F1 : finite32 x1 = true) by (apply bound32_finite; try assumption; lia).
  assert (F2 : finite32 x2 = true) by (apply bound32_finite; try assumption; lia).
  (* the differences *)
  destruct (sub32_val x1 (snd a) F1 Fax) as (Vu1 & Nu1 & Eu1).
  destruct (sub32_val x2 (snd a) F2 Fax) as (Vu2 & Nu2 & Eu2).
  destruct (sub32_val (snd b) (snd a) Fbx Fax) as (_ & _ & Et).
  set (u1 := F32.sub x1 (snd a)) in *. set (u2 := F32.sub x2 (snd a)) in *.
  set (t := F32.sub (snd b) (snd a)) in *.
  assert (Hu : 0 <= val32 u1 /\ val32 u1 <= val32 u2 /\ val32 u2 <= val32 t).
  { rewrite Eu1, Eu2, Et. repeat split; [|apply round32_mono; lia..].
    apply Z.le_trans with (round32 0); [apply Z.le_refl | apply round32_mono; lia]. }
  destruct Hu as (Hu0 & Hu12 & Hut).
  assert (Fu1 : finite32 u1 = true) by (apply bound32_finite; try assumption; lia).
  assert (Fu2 : finite32 u2 = true) by (apply bound32_finite; try assumption; lia).
  (* the products *)
  set (c := slope b a) in *.
  destruct (mul32_val c u1 Fc Fu1) as (Vv1 & Nv1 & Ev1).
  destruct (mul32_val c u2 Fc Fu2) as (Vv2 & Nv2 & Ev2).
  destruct (mul32_val c t Fc Ftop) as (_ & _ & Evt).
  set (v1 := F32.mul c u1) in *. set (v2 := F32.mul c u2) in *.
  set (vt := F32.mul c t) in *.
  set (K := 2 ^ (- unit_exp F32.prec F32.emax)) in *.
  assert (HK : 0 < K) by (apply pow2_pos; vm_compute; discriminate).
  assert (Hv : val32 vt <= val32 v2 /\ val32 v2 <= val32 v1 /\ val32 v1 <= 0).
  { rewrite Ev1, Ev2, Evt. repeat split.
    - apply round32_mono, Z.div_le_mono; [exact HK | nia].
    - apply round32_mono, Z.div_le_mono; [exact HK | nia].
    - apply Z.le_trans with (round32 0); [|apply Z.le_refl].
      apply round32_mono. apply Z.div_le_upper_bound; [exact HK | nia]. }
  destruct Hv as (Hvt & Hv12 & Hv0).
  assert (Fv1 : finite32 v1 = true) by (apply bound32_finite; try assumption; lia).
  assert (Fv2 : finite32 v2 = true) by (apply bound32_finite; try assumption; lia).
  (* the sums *)
  destruct (add32_val v1 (fst a) Fv1 Fay) as (Vw1 & Nw1 & Ew1).
  destruct (add32_val v2 (fst a) Fv2 Fay) as (Vw2 & Nw2 & Ew2).
  destruct (add32_val vt (fst a) Fmt Fay) as (_ & _ & Ewt).
  assert (Ha : round32 (val32 (fst a)) = val32 (fst a)).
  { apply round32_id. apply finite32_iff in Fay. tauto. }
  assert (Hw : val32 (F32.add vt (fst a)) <= val32 (F32.add v2 (fst a)) /\
               val32 (F32.add v2 (fst a)) <= val32 (F32.add v1 (fst a)) /\
               val32 (F32.add v1 (fst a)) <= val32 (fst a)).
  { rewrite Ew1, Ew2, Ewt. repeat split; [apply round32_mono; lia..|].
    rewrite <- Ha at 2. apply round32_mono; lia. }
  destruct Hw as (Hwt & Hw12 & Hwa).
  repeat split; try lia; apply bound32_finite; try assumption; lia.
Qed.

(** ** The distance model: the loop over the table *)

Lemma scan_rows_step (b a : spec_float * spec_float) (rest : list (spec_float * spec_float))
      (x : spec_float) :
  scan_rows (b :: a :: rest) x =
  if F32.geb (snd b) x && F32.ltb (snd a) x then interpolate b a x
  else scan_rows (a :: rest) x.
Proof. reflexivity. Qed.

Lemma rows_ok_step (b a : spec_float * spec_float) (rest : list (spec_float * spec_float)) :
  rows_ok (b :: a :: rest) = true -> segment_ok b a = true /\ rows_ok (a :: rest) = true.
Proof. cbn [rows_ok]. apply andb_true_iff. Qed.

Lemma SFltb_nan_r (y : spec_float) : SFltb y S754_nan = false.
Proof. destruct y; reflexivity. Qed.

Lemma finite32_valid (x : spec_float) : finite32 x = true -> F32.valid x = true.
Proof. intros H. apply finite32_iff in H. tauto. Qed.

Lemma finite32_not_nan (x : spec_float) : finite32 x = true -> is_nan x = false.
Proof. intros H. apply finite32_iff in H. apply is_finite_not_nan. tauto. Qed.

(** The test of line 81, on values. *)
Lemma bracket_val (b a : spec_float * spec_float) (x : spec_float) :
  segment_ok b a = true -> F32.valid x = true -> is_nan x = false ->
  F32.geb (snd b) x && F32.ltb (snd a) x =
  (val32 x <=? val32 (snd b)) && (val32 (snd a) <? val32 x).
Proof.
  intros Hok V N.
  destruct (segment_ok_facts b a Hok) as ((_ & Fbx & _ & Fax & _) & _).
  unfold F32.geb. fold (F32.leb x (snd b)).
  rewrite leb32_val, ltb32_val;
    auto using finite32_valid, finite32_not_nan.
Qed.

(** Nothing brackets a NaN, a zero or a negative number. *)
Lemma scan_rows_nonpos (rows : list (spec_float * spec_float)) (x : spec_float) :
  rows_ok rows = true -> F32.valid x = true ->
  is_nan x = true \/ val32 x <= 0 ->
  scan_rows rows x = sentinel.
Proof.
  intros Hok V Hx. induction rows as [|b rest IH]; [reflexivity|].
  destruct rest as [|a rest]; [reflexivity|].
  apply rows_ok_step in Hok. destruct Hok as [Hseg Hrest].
  rewrite scan_rows_step.
  replace (F32.ltb (snd a) x) with false; [rewrite andb_false_r; apply IH; exact Hrest|].
  symmetry. destruct (is_nan x) eqn:N.
  - destruct x; try discriminate N. apply SFltb_nan_r.
  - destruct Hx as [Hx|Hx]; [discriminate Hx|].
    destruct (segment_ok_facts b a Hseg) as ((_ & _ & _ & Fax & _) & _ & Hax & _).
    rewrite ltb32_val; auto using finite32_valid, finite32_not_nan.
    apply Z.ltb_ge. lia.
Qed.

(** Nothing brackets a number above the first intensity. *)
Lemma scan_rows_above (rows : list (spec_float * spec_float)) (x : spec_float) :
  rows_ok rows = true -> F32.valid x = true -> is_nan x = false ->
  val32 (snd (hd origin rows)) < val32 x ->
  scan_rows rows x = sentinel.
Proof.
  intros Hok V N. induction rows as [|b rest IH]; [reflexivity|].
  destruct rest as [|a rest]; [reflexivity|].
  apply rows_ok_step in Hok. destruct Hok as [Hseg Hrest].
  cbn [hd]. intros Hx.
  rewrite scan_rows_step, (bracket_val b a x Hseg V N).
  replace (val32 x <=? val32 (snd b)) with false by (symmetry; apply Z.leb_gt; exact Hx).
  cbn [andb]. apply IH; [exact Hrest|].
  destruct (segment_ok_facts b a Hseg) as (_ & _ & _ & Hab & _).
  cbn [hd]. lia.
Qed.

(** Distances increase along the table. *)
Lemma last_distance_ge (a : spec_float * spec_float) (rest : list (spec_float * spec_float)) :
  rows_ok (a :: rest) = true -> val32 (fst a) <= val32 (fst (last (a :: rest) origin)).
Proof.
  revert a. induction rest as [|a' rest IH]; intros a Hok; [cbn; lia|].
  apply rows_ok_step in Hok. destruct Hok as [Hseg Hrest].
  destruct (segment_ok_facts a a' Hseg) as (_ & _ & _ & _ & Hy & _).
  specialize (IH a' Hrest).
  change (last (a :: a' :: rest) origin) with (last (a' :: rest) origin). lia.
Qed.

(** Between the last and the first intensity of the table the result is
    finite, lies between the first and the last distance, and does not
    increase with the intensity. *)
Lemma scan_rows_inside (rows : list (spec_float * spec_float)) (x1 x2 : spec_float) :
  rows_ok rows = true ->
  F32.valid x1 = true -> F32.valid x2 = true ->
  is_nan x1 = false -> is_nan x2 = false ->
  val32 (snd (last rows origin)) < val32 x1 ->
  val32 x1 <= val32 x2 ->
  val32 x2 <= val32 (snd (hd origin rows)) ->
  finite32 (scan_rows rows x1) = true /\ finite32 (scan_rows rows x2) = true /\
  val32 (fst (hd origin rows)) <= val32 (scan_rows rows x2) /\
  val32 (scan_rows rows x2) <= val32 (scan_rows rows x1) /\
  val32 (scan_rows rows x1) <= val32 (fst (last rows origin)).
Proof.
  intros Hok V1 V2 N1 N2. revert x1 x2 V1 V2 N1 N2.
  induction rows as [|b rest IH]; intros x1 x2 V1 V2 N1 N2 Hlo H12 Hhi.
  { cbn in Hlo, Hhi. lia. }
  destruct rest as [|a rest].
  { cbn in Hlo, Hhi. lia. }
  apply rows_ok_step in Hok. destruct Hok as [Hseg Hrest].
  specialize (IH Hrest).
  change (last (b :: a :: rest) origin) with (last (a :: rest) origin) in *.
  cbn [hd] in Hhi |- *.
  pose proof (last_distance_ge a rest Hrest) as Hlast.
  destruct (segment_ok_facts b a Hseg) as (_ & _ & _ & _ & Hy & _).
  rewrite !scan_rows_step.
  rewrite (bracket_val b a x1 Hseg V1 N1), (bracket_val b a x2 Hseg V2 N2).
  replace (val32 x1 <=? val32 (snd b)) with true by (symmetry; apply Z.leb_le; lia).
  replace (val32 x2 <=? val32 (snd b)) with true by (symmetry; apply Z.leb_le; lia).
  cbn [andb].
  destruct (Z.ltb_spec (val32 (snd a)) (val32 x1)) as [Ha1|Ha1].
  - (* both in the first interval *)
    replace (val32 (snd a) <? val32 x2) with true by (symmetry; apply Z.ltb_lt; lia).
    destruct (segment_spec b a x1 x2 Hseg V1 V2 N1 N2 Ha1 H12 Hhi) as (F1 & F2 & L & M & U).
    repeat split; try assumption; lia.
  - destruct (Z.ltb_spec (val32 (snd a)) (val32 x2)) as [Ha2|Ha2].
    + (* [x2] in the first interval, [x1] further down *)
      destruct (segment_spec b a x2 x2 Hseg V2 V2 N2 N2 Ha2 ltac:(lia) Hhi)
        as (F2 & _ & L & _ & U).
      destruct (IH x1 x1 V1 V1 N1 N1 Hlo ltac:(lia) Ha1) as (F1 & _ & L1 & _ & U1).
      cbn [hd] in L1.
      repeat split; try assumption; lia.
    + (* both further down *)
      destruct (IH x1 x2 V1 V2 N1 N2 Hlo H12 Ha2) as (F1 & F2 & L & M & U).
      cbn [hd] in L.
      repeat split; try assumption; lia.
Qed.

(** Every result is the sentinel or the interpolation between two consecutive
    rows that bracket the input. *)
Lemma scan_rows_cases (rows : list (spec_float * spec_float)) (x : spec_float) :
  scan_rows rows x = sentinel \/
  exists i : nat,
    (S i < length rows)%nat /\
    F32.geb (snd (nth i rows origin)) x = true /\
    F32.ltb (snd (nth (S i) rows origin)) x = true /\
    scan_rows rows x = interpolate (nth i rows origin) (nth (S i) rows origin) x.
Proof.
  induction rows as [|b rest IH]; [left; reflexivity|].
  destruct rest as [|a rest]; [left; reflexivity|].
  rewrite scan_rows_step.
  destruct (F32.geb (snd b) x && F32.ltb (snd a) x) eqn:E.
  - right. exists 0%nat. apply andb_true_iff in E. destruct E as [E1 E2].
    cbn [nth length]. repeat split; try assumption. lia.
  - destruct IH as [IH|(i & Hi & G & L & E')]; [left; exact IH|].
    right. exists (S i). cbn [length] in Hi |- *.
    change (nth (S i) (b :: a :: rest) origin) with (nth i (a :: rest) origin).
    change (nth (S (S i)) (b :: a :: rest) origin) with (nth (S i) (a :: rest) origin).
    repeat split; try assumption. lia.
Qed.

Lemma rows_ok_table : rows_ok table = true.
Proof. vm_compute. reflexivity. Qed.

Lemma table_first : hd origin table = (F32.of_int 0, F32.of_int 4095).
Proof. reflexivity. Qed.

Lemma table_last : last table origin = (lit32 1 1, S754_zero false).
Proof. reflexivity. Qed.

Lemma sentinel_finite : finite32 sentinel = true.
Proof. reflexivity. Qed.

Lemma table_below_sentinel : val32 (lit32 1 1) < val32 sentinel.
Proof. vm_compute. reflexivity. Qed.

(** The three regions of the input. *)
Lemma intensity_regions (x : spec_float) :
  F32.valid x = true ->
  (is_nan x = true \/ val32 x <= 0 \/ val32 (F32.of_int 4095) < val32 x) \/
  (is_nan x = false /\ 0 < val32 x <= val32 (F32.of_int 4095)).
Proof.
  intros _. destruct (is_nan x); [left; left; reflexivity|].
  destruct (Z_le_gt_dec (val32 x) 0); [left; right; left; assumption|].
  destruct (Z_le_gt_dec (val32 x) (val32 (F32.of_int 4095))); [right; split; [reflexivity|lia]|].
  left; right; right; lia.
Qed.

Lemma intensity_outside (x : spec_float) :
  F32.valid x = true ->
  is_nan x = true \/ val32 x <= 0 \/ val32 (F32.of_int 4095) < val32 x ->
  intensity_to_distance x = sentinel.
Proof.
  intros V [N|[H|H]]; unfold intensity_to_distance.
  - apply scan_rows_nonpos; [exact rows_ok_table | exact V | left; exact N].
  - apply scan_rows_nonpos; [exact rows_ok_table | exact V | right; exact H].
  - destruct (is_nan x) eqn:N.
    + apply scan_rows_nonpos; [exact rows_ok_table | exact V | left; exact N].
    + apply scan_rows_above; [exact rows_ok_table | exact V | exact N |].
      rewrite table_first. exact H.
Qed.

Lemma intensity_inside (x1 x2 : spec_float) :
  F32.valid x1 = true -> F32.valid x2 = true ->
  is_nan x1 = false -> is_nan x2 = false ->
  0 < val32 x1 -> val32 x1 <= val32 x2 -> val32 x2 <= val32 (F32.of_int 4095) ->
  finite32 (intensity_to_distance x1) = true /\
  finite32 (intensity_to_distance x2) = true /\
  0 <= val32 (intensity_to_distance x2) /\
  val32 (intensity_to_distance x2) <= val32 (intensity_to_distance x1) /\
  val32 (intensity_to_distance x1) <= val32 (lit32 1 1).
Proof.
  intros V1 V2 N1 N2 H0 H12 H2.
  pose proof (scan_rows_inside table x1 x2 rows_ok_table V1 V2 N1 N2) as H.
  rewrite table_first, table_last in H. cbn [fst snd] in H.
  apply H; assumption.
Qed.

(** ** Claims on the distance model *)

(** C4, as amended.  [intensity_to_distance(0)] returns the sentinel 100.0 (no
    pair of rows brackets 0: the test [table[i + 1][1] < p_x] is strict), and
    every input strictly below the intensity 0.0 of the last row returns the
    sentinel. *)
Theorem intensity_to_distance_low (p_x : spec_float) :
  F32.ltb p_x (snd (last table origin)) = true ->
  intensity_to_distance (F32.of_int 0) = sentinel /\
  intensity_to_distance p_x = sentinel.
Proof.
  intros H. split; [reflexivity|].
  destruct p_x as [s|[]| |[] m e]; try discriminate H; reflexivity.
Qed.

Lemma intensity_to_distance_low_witness :
  intensity_to_distance (F32.of_int 0) = sentinel /\
  intensity_to_distance (F32.of_int (-3)) = sentinel.
Proof.
  apply (intensity_to_distance_low (F32.of_int (-3))). vm_compute. reflexivity.
Defined.

(** C4 as stated fails: at intensity 0 the function returns 100.0, which is
    not 0. *)
Lemma intensity_to_distance_zero_not_zero :
  ~ (SFeqb (intensity_to_distance (F32.of_int 0)) (F32.of_int 0) = true).
Proof. vm_compute. discriminate. Qed.

(** C8.  On [[0, 4095]] the distance does not increase when the intensity
    increases; this holds on the whole range, the interval between the first
    two rows included. *)
Theorem intensity_to_distance_monotone (x1 x2 : spec_float) :
  F32.valid x1 = true -> F32.valid x2 = true ->
  F32.leb (F32.of_int 0) x1 = true ->
  F32.leb x1 x2 = true ->
  F32.leb x2 (F32.of_int 4095) = true ->
  F32.leb (intensity_to_distance x2) (intensity_to_distance x1) = true.
Proof.
  intros V1 V2 H0 H12 H2.
  destruct (SFleb_not_nan x1 x2 H12) as [N1 N2].
  rewrite (leb32_val (F32.of_int 0) x1 eq_refl V1 eq_refl N1) in H0.
  rewrite (leb32_val x1 x2 V1 V2 N1 N2) in H12.
  rewrite (leb32_val x2 (F32.of_int 4095) V2 eq_refl N2 eq_refl) in H2.
  apply Z.leb_le in H0, H12, H2. change (val32 (F32.of_int 0)) with 0 in H0.
  pose proof table_below_sentinel as Hs.
  destruct (Z.eq_dec (val32 x1) 0) as [E1|E1].
  - rewrite (intensity_outside x1 V1) by (right; left; lia).
    destruct (Z.eq_dec (val32 x2) 0) as [E2|E2].
    + rewrite (intensity_outside x2 V2) by (right; left; lia). reflexivity.
    + destruct (intensity_inside x2 x2 V2 V2 N2 N2 ltac:(lia) ltac:(lia) H2)
        as (F & _ & _ & _ & U).
      rewrite leb32_val; auto using finite32_valid, finite32_not_nan.
      apply Z.leb_le. lia.
  - destruct (intensity_inside x1 x2 V1 V2 N1 N2 ltac:(lia) H12 H2)
      as (F1 & F2 & _ & M & _).
    rewrite leb32_val; auto using finite32_valid, finite32_not_nan.
    apply Z.leb_le. exact M.
Qed.

Lemma intensity_to_distance_monotone_witness :
  F32.leb (intensity_to_distance (F32.of_int 2000)) (intensity_to_distance (F32.of_int 100)) = true.
Proof.
  apply (intensity_to_distance_monotone (F32.of_int 100) (F32.of_int 2000));
    vm_compute; reflexivity.
Defined.

(** C10.  Every result is either the sentinel 100.0 or the interpolation
    between two consecutive rows, and then it lies between the first and the
    last distance of the table, the [float]s 0 and 0.1; an input above the
    first intensity, 4095, returns the sentinel. *)
Theorem intensity_to_distance_range (p_x q_x : spec_float) :
  F32.valid p_x = true ->
  F32.valid q_x = true -> F32.ltb (F32.of_int 4095) q_x = true ->
  (intensity_to_distance p_x = sentinel \/
   (exists i : nat,
      (S i < length table)%nat /\
      intensity_to_distance p_x =
        interpolate (nth i table origin) (nth (S i) table origin) p_x) /\
   F32.leb (F32.of_int 0) (intensity_to_distance p_x) = true /\
   F32.leb (intensity_to_distance p_x) (lit32 1 1) = true) /\
  intensity_to_distance q_x = sentinel.
Proof.
  intros V Vq H. split.
  - destruct (intensity_regions p_x V) as [Hout|[N Hin]].
    + left. apply intensity_outside; assumption.
    + destruct (scan_rows_cases table p_x) as [Hs|(i & Hi & _ & _ & E)];
        [left; exact Hs|].
      right. split; [exists i; split; assumption|].
      destruct (intensity_inside p_x p_x V V N N ltac:(lia) ltac:(lia) ltac:(lia))
        as (F & _ & L & _ & U).
      rewrite !leb32_val; auto using finite32_valid, finite32_not_nan.
      split; apply Z.leb_le; [exact L | exact U].
  - destruct (SFltb_not_nan (F32.of_int 4095) q_x H) as [_ N].
    rewrite (ltb32_val (F32.of_int 4095) q_x eq_refl Vq eq_refl N) in H.
    apply Z.ltb_lt in H.
    apply intensity_outside; [exact Vq | right; right; exact H].
Qed.

Lemma intensity_to_distance_range_witness :
  (intensity_to_distance (F32.of_int 100) = sentinel \/
   (exists i : nat,
      (S i < length table)%nat /\
      intensity_to_distance (F32.of_int 100) =
        interpolate (nth i table origin) (nth (S i) table origin) (F32.of_int 100)) /\
   F32.leb (F32.of_int 0) (intensity_to_distance (F32.of_int 100)) = true /\
   F32.leb (intensity_to_distance (F32.of_int 100)) (lit32 1 1) = true) /\
  intensity_to_distance (F32.of_int 5000) = sentinel.
Proof.
  apply (intensity_to_distance_range (F32.of_int 100) (F32.of_int 5000));
    vm_compute; reflexivity.
Defined.

(** ** The kinematics converter *)

Lemma prec64_pos : 0 < F64.prec.
Proof. reflexivity. Qed.

Lemma prec64_lt_emax : F64.prec < F64.emax.
Proof. reflexivity. Qed.

Lemma finite64_iff (x : spec_float) :
  finite64 x = true <-> F64.valid x = true /\ is_finite x = true.
Proof. unfold finite64. apply andb_true_iff. Qed.

Lemma unit64_pos : 0 < unit64.
Proof. apply pow2_pos. vm_compute. discriminate. Qed.

Lemma round64_mono (X Y : Z) : X <= Y -> round64 X <= round64 Y.
Proof. apply round_val_mono; [exact prec64_pos | exact prec64_lt_emax]. Qed.

Lemma round64_id (x : spec_float) : F64.valid x = true -> round64 (val64 x) = val64 x.
Proof. apply round_val_of_val; [exact prec64_pos | exact prec64_lt_emax]. Qed.

Lemma finite64_bound (x : spec_float) : finite64 x = true -> - top64 < val64 x < top64.
Proof.
  intros H. apply finite64_iff in H. destruct H as [V F].
  apply is_finite_bound; [exact prec64_pos | exact prec64_lt_emax | exact V | exact F].
Qed.

Lemma bound64_finite (x : spec_float) :
  F64.valid x = true -> is_nan x = false -> - top64 < val64 x < top64 -> finite64 x = true.
Proof.
  intros V N H. apply finite64_iff. split; [exact V|].
  apply (bound_is_finite F64.prec F64.emax); assumption.
Qed.

Lemma ltb64_val (x y : spec_float) :
  F64.valid x = true -> F64.valid y = true -> is_nan x = false -> is_nan y = false ->
  SFltb x y = (val64 x <? val64 y).
Proof. apply SFltb_val; [exact prec64_pos | exact prec64_lt_emax]. Qed.

Lemma mul64_val (x y : spec_float) :
  finite64 x = true -> finite64 y = true ->
  F64.valid (F64.mul x y) = true /\ is_nan (F64.mul x y) = false /\
  val64 (F64.mul x y) = round64 (val64 x * val64 y / unit64).
Proof.
  intros Hx Hy. apply finite64_iff in Hx, Hy. destruct Hx, Hy.
  apply (SFmul_val F64.prec F64.emax prec64_pos prec64_lt_emax); assumption.
Qed.

(** A sum or a difference whose second operand is finite is no NaN. *)
Lemma sub64_number (x y : spec_float) :
  F64.valid x = true -> is_nan x = false -> finite64 y = true ->
  F64.valid (F64.sub x y) = true /\ is_nan (F64.sub x y) = false.
Proof.
  intros V N Fy. apply finite64_iff in Fy. destruct Fy as [Vy Fy].
  destruct (is_finite x) eqn:Fx.
  - destruct (SFsub_val F64.prec F64.emax prec64_pos prec64_lt_emax x y V Vy Fx Fy)
      as (A & B & _).
    split; assumption.
  - destruct x as [s|s| |s m e]; try discriminate;
      destruct y as [sy|sy| |sy my ey]; try discriminate; split; reflexivity.
Qed.

Lemma add64_number (x y : spec_float) :
  F64.valid x = true -> is_nan x = false -> finite64 y = true ->
  F64.valid (F64.add x y) = true /\ is_nan (F64.add x y) = false.
Proof.
  intros V N Fy. apply finite64_iff in Fy. destruct Fy as [Vy Fy].
  destruct (is_finite x) eqn:Fx.
  - destruct (SFadd_val F64.prec F64.emax prec64_pos prec64_lt_emax x y V Vy Fx Fy)
      as (A & B & _).
    split; assumption.
  - destruct x as [s|s| |s m e]; try discriminate;
      destruct y as [sy|sy| |sy my ey]; try discriminate; split; reflexivity.
Qed.

Lemma div64_number (x y : spec_float) :
  is_nan x = false -> is_nonzero y = true ->
  F64.valid (F64.div x y) = true /\ is_nan (F64.div x y) = false.
Proof.
  intros N Hy. split.
  - apply (SFdiv_valid F64.prec F64.emax prec64_pos).
  - destruct y as [sy|sy| |sy my ey]; try discriminate Hy.
    apply (SFdiv_not_nan F64.prec F64.emax prec64_pos). exact N.
Qed.

(** A finite number times a factor below one is finite. *)
Lemma mul64_small (z w : spec_float) :
  finite64 z = true -> finite64 w = true -> 0 <= val64 w <= unit64 ->
  finite64 (F64.mul z w) = true.
Proof.
  intros Fz Fw Hw. destruct (mul64_val z w Fz Fw) as (V & N & E).
  pose proof (finite64_bound z Fz) as Bz. pose proof unit64_pos as HK.
  pose proof (round64_id z (proj1 (proj1 (finite64_iff z) Fz))) as Hz.
  apply bound64_finite; try assumption. rewrite E.
  destruct (Z_le_gt_dec 0 (val64 z)) as [Hpos|Hneg].
  - assert (0 <= val64 z * val64 w / unit64 <= val64 z).
    { split; [apply Z.div_pos; nia | apply Z.div_le_upper_bound; nia]. }
    pose proof (round64_mono 0 _ (proj1 H)) as L.
    pose proof (round64_mono _ _ (proj2 H)) as U.
    change (round64 0) with 0 in L. lia.
  - assert (val64 z <= val64 z * val64 w / unit64 <= 0).
    { split; [apply Z.div_le_lower_bound; nia | apply Z.div_le_upper_bound; nia]. }
    pose proof (round64_mono _ _ (proj1 H)) as L.
    pose proof (round64_mono _ 0 (proj2 H)) as U.
    change (round64 0) with 0 in U. lia.
Qed.

(** Conversion to [int], on values. *)
Lemma to_int_val (x : spec_float) :
  finite64 x = true -> F64.to_int x = Z.quot (val64 x) unit64.
Proof.
  intros F. apply finite64_iff in F. destruct F as [V F].
  destruct x as [s|s| |s m e]; try discriminate F; [reflexivity|].
  destruct (valid_finite_val F64.prec F64.emax prec64_pos prec64_lt_emax s m e V) as (HB & _).
  pose proof unit64_pos as HK. unfold unit64 in *.
  set (B := unit_exp F64.prec F64.emax) in *.
  assert (HB0 : B <= 0) by (vm_compute; discriminate).
  unfold val64. cbn [Zval]. fold B.
  assert (Hs : forall P Q : Z, 0 <= P -> Z.quot P (2 ^ (- B)) = Q ->
                               Z.quot (cond_Zopp s P) (2 ^ (- B)) = cond_Zopp s Q).
  { intros P Q HP <-. destruct s; cbn [cond_Zopp]; [|reflexivity].
    apply Z.quot_opp_l. lia. }
  destruct e as [|k|k].
  - cbn [F64.to_int]. symmetry. apply Hs; [lia|].
    rewrite Z.pow_0_r, Z.sub_0_l, Z.mul_1_r. apply Z.quot_mul. lia.
  - cbn [F64.to_int]. symmetry.
    pose proof (pow2_pos (Z.pos k) ltac:(lia)).
    apply Hs; [pose proof (pow2_pos (Z.pos k - B) ltac:(lia)); nia|].
    replace (Z.pos k - B) with (Z.pos k + - B) by lia.
    rewrite pow2_split, Z.mul_assoc by lia. apply Z.quot_mul. lia.
  - cbn [F64.to_int]. symmetry.
    pose proof (pow2_pos (Z.pos k) ltac:(lia)).
    pose proof (pow2_pos (Z.neg k - B) ltac:(lia)).
    apply Hs; [nia|].
    replace (- B) with (Z.pos k + (Z.neg k - B)) by lia.
    rewrite pow2_split by lia.
    rewrite Z.quot_div_nonneg by nia.
    rewrite Z.div_mul_cancel_r by lia. reflexivity.
Qed.

Lemma clip_bounds_val :
  val64 (F64.of_int 1108) = 1108 * unit64 /\ val64 (F64.of_int (-1108)) = -1108 * unit64 /\
  1108 * unit64 < top64.
Proof. vm_compute. repeat split. Qed.

Lemma to_int_clipped (v : spec_float) :
  F64.valid v = true -> is_nan v = false ->
  -1108 * unit64 <= val64 v <= 1108 * unit64 ->
  -1108 <= F64.to_int v <= 1108.
Proof.
  intros V N H. destruct clip_bounds_val as (_ & _ & Ht). pose proof unit64_pos as HK.
  rewrite to_int_val by (apply bound64_finite; try assumption; lia).
  split.
  - rewrite <- (Z.quot_mul (-1108) unit64) by lia. apply Z.quot_le_mono; lia.
  - rewrite <- (Z.quot_mul 1108 unit64) by lia. apply Z.quot_le_mono; lia.
Qed.

(** The macro, on any [double]: the converted result is in the range. *)
Lemma CLIP_range (v : spec_float) :
  F64.valid v = true -> -1108 <= F64.to_int (CLIP v (-1108) 1108) <= 1108.
Proof.
  intros V. unfold CLIP. cbv zeta.
  destruct clip_bounds_val as (Hhi & Hlo & _). pose proof unit64_pos as HK.
  destruct (is_nan v) eqn:N.
  { destruct v; try discriminate N. vm_compute. split; discriminate. }
  unfold F64.gtb, F64.ltb.
  rewrite (ltb64_val (F64.of_int 1108) v eq_refl V eq_refl N).
  destruct (Z.ltb_spec (val64 (F64.of_int 1108)) (val64 v)) as [H1|H1].
  { vm_compute. split; discriminate. }
  cbv iota.
  rewrite (ltb64_val (F64.of_int (-1108)) v eq_refl V eq_refl N).
  destruct (Z.ltb_spec (val64 (F64.of_int (-1108))) (val64 v)) as [H2|H2].
  - apply to_int_clipped; try assumption. lia.
  - vm_compute. split; discriminate.
Qed.

(** On a number, the macro and the clipping of the specification give the
    same register. *)
Lemma CLIP_clip_symmetric (v : spec_float) :
  F64.valid v = true -> is_nan v = false ->
  F64.to_int (CLIP v (-1108) 1108) = F64.to_int (clip_symmetric v 1108).
Proof.
  intros V N. unfold CLIP, clip_symmetric. cbv zeta.
  destruct clip_bounds_val as (Hhi & Hlo & Ht). pose proof unit64_pos as HK.
  unfold F64.gtb, F64.ltb. change (- (1108)) with (-1108).
  rewrite (ltb64_val (F64.of_int 1108) v eq_refl V eq_refl N).
  rewrite (ltb64_val v (F64.of_int (-1108)) V eq_refl N eq_refl).
  destruct (Z.ltb_spec (val64 (F64.of_int 1108)) (val64 v)) as [H1|H1].
  - replace (val64 v <? val64 (F64.of_int (-1108))) with false
      by (symmetry; apply Z.ltb_ge; lia).
    reflexivity.
  - cbv iota. rewrite (ltb64_val (F64.of_int (-1108)) v eq_refl V eq_refl N).
    destruct (Z.ltb_spec (val64 (F64.of_int (-1108))) (val64 v)) as [H2|H2].
    + replace (val64 v <? val64 (F64.of_int (-1108))) with false
        by (symmetry; apply Z.ltb_ge; lia).
      reflexivity.
    + destruct (Z.ltb_spec (val64 v) (val64 (F64.of_int (-1108)))) as [H3|H3];
        [reflexivity|].
      assert (E : val64 v = val64 (F64.of_int (-1108))) by lia.
      rewrite !to_int_val; [rewrite E; reflexivity | | reflexivity].
      apply bound64_finite; try assumption. lia.
Qed.

(** With finite inputs, the quotient that is clipped is a number. *)
Lemma velocity_number (linear_x angular_z : spec_float) :
  finite64 linear_x = true -> finite64 angular_z = true ->
  let l := F64.div (left_velocity linear_x angular_z) register_step in
  let r := F64.div (right_velocity linear_x angular_z) register_step in
  (F64.valid l = true /\ is_nan l = false) /\ (F64.valid r = true /\ is_nan r = false).
Proof.
  intros Fx Fz. cbv zeta. unfold left_velocity, right_velocity.
  destruct (mul64_val two linear_x eq_refl Fx) as (Va & Na & _).
  assert (Fb : finite64 (F64.mul angular_z WHEEL_DISTANCE) = true).
  { apply mul64_small; [exact Fz | reflexivity | vm_compute; split; discriminate]. }
  destruct (sub64_number _ _ Va Na Fb) as (Vs & Ns).
  destruct (add64_number _ _ Va Na Fb) as (Vp & Np).
  destruct (div64_number _ (F64.mul two WHEEL_RADIUS) Ns eq_refl) as (_ & Nl).
  destruct (div64_number _ (F64.mul two WHEEL_RADIUS) Np eq_refl) as (_ & Nr).
  split; apply div64_number; (assumption || reflexivity).
Qed.

(** C5.  For finite inputs the two registers are the wheel velocities
    [(2 * linear_x -/+ angular_z * WHEEL_DISTANCE) / (2 * WHEEL_RADIUS)], each
    divided by 0.0068 and clipped to [[-1108, 1108]]; both registers lie in
    [[-1108, 1108]]; the command (0, 0) gives the registers (0, 0). *)
Theorem cmd_to_registers_spec (linear_x angular_z : spec_float) :
  finite64 linear_x = true -> finite64 angular_z = true ->
  cmd_to_registers linear_x angular_z =
    (register_of (F64.div (F64.sub (F64.mul two linear_x) (F64.mul angular_z WHEEL_DISTANCE))
                          (F64.mul two WHEEL_RADIUS)),
     register_of (F64.div (F64.add (F64.mul two linear_x) (F64.mul angular_z WHEEL_DISTANCE))
                          (F64.mul two WHEEL_RADIUS))) /\
  (-1108 <= fst (cmd_to_registers linear_x angular_z) <= 1108 /\
   -1108 <= snd (cmd_to_registers linear_x angular_z) <= 1108) /\
  cmd_to_registers (S754_zero false) (S754_zero false) = (0, 0).
Proof.
  intros Fx Fz.
  destruct (velocity_number linear_x angular_z Fx Fz) as ((Vl & Nl) & (Vr & Nr)).
  unfold cmd_to_registers, velocity_big, register_of. cbn [fst snd].
  change (lit64 68 4) with register_step.
  fold (left_velocity linear_x angular_z) (right_velocity linear_x angular_z).
  repeat split.
  - rewrite !CLIP_clip_symmetric by assumption. reflexivity.
  - apply CLIP_range; assumption.
  - apply CLIP_range; assumption.
  - apply CLIP_range; assumption.
  - apply CLIP_range; assumption.
Qed.

Lemma cmd_to_registers_spec_witness :
  cmd_to_registers (lit64 1 1) (lit64 5 1) =
    (register_of (F64.div (F64.sub (F64.mul two (lit64 1 1)) (F64.mul (lit64 5 1) WHEEL_DISTANCE))
                          (F64.mul two WHEEL_RADIUS)),
     register_of (F64.div (F64.add (F64.mul two (lit64 1 1)) (F64.mul (lit64 5 1) WHEEL_DISTANCE))
                          (F64.mul two WHEEL_RADIUS))) /\
  (-1108 <= fst (cmd_to_registers (lit64 1 1) (lit64 5 1)) <= 1108 /\
   -1108 <= snd (cmd_to_registers (lit64 1 1) (lit64 5 1)) <= 1108) /\
  cmd_to_registers (S754_zero false) (S754_zero false) = (0, 0).
Proof.
  apply (cmd_to_registers_spec (lit64 1 1) (lit64 5 1)); vm_compute; reflexivity.
Defined.

(** ** The scan assembler *)

Lemma at_finite (dist : list spec_float) (i : nat) :
  forallb is_finite dist = true -> is_finite (at_ dist i) = true.
Proof.
  unfold at_. revert i. induction dist as [|d dist IH]; intros i H.
  - destruct i; reflexivity.
  - cbn [forallb] in H. apply andb_true_iff in H. destruct H as [Hd H].
    destruct i; cbn [nth]; [exact Hd | apply IH; exact H].
Qed.

(** A blend whose two [int] quotients are 0 is a zero. *)
Lemma blend_zero (n1 d1 n2 d2 : Z) (x y : spec_float) :
  Z.quot n1 d1 = 0 -> Z.quot n2 d2 = 0 ->
  is_finite x = true -> is_finite y = true ->
  exists s : bool, blend n1 d1 x n2 d2 y = S754_zero s.
Proof.
  intros H1 H2 Fx Fy. unfold blend. rewrite H1, H2.
  destruct x as [sx|sx| |sx mx ex]; try discriminate Fx;
    destruct y as [sy|sy| |sy my ey]; try discriminate Fy;
    destruct sx, sy; eexists; reflexivity.
Qed.

(** C2 (what the code computes).  The weights [3 / 4], [2 / 4], [1 / 4],
    [2 / 3], [1 / 3] and [1 / 2] are quotients of [int] literals, all 0: with
    finite sensor distances every intermediate entry of the scan is a zero,
    not a blend of the two neighbouring distances. *)
Theorem scan_ranges_intermediate_zero (dist : list spec_float) (i : nat) :
  forallb is_finite dist = true ->
  In i [1; 2; 3; 5; 6; 8; 10; 12; 14; 15; 17; 18; 19]%nat ->
  exists s : bool, nth i (scan_ranges dist) (S754_zero false) = S754_zero s.
Proof.
  intros F Hi. unfold scan_ranges. cbv zeta.
  cbn [In] in Hi.
  repeat (destruct Hi as [<-|Hi];
          [cbn [nth]; apply blend_zero;
           (reflexivity || (apply at_finite; exact F))|]).
  contradiction.
Qed.

Lemma scan_ranges_intermediate_zero_witness :
  exists s : bool,
    nth 1 (scan_ranges (repeat (F32.of_int 1) 8)) (S754_zero false) = S754_zero s.
Proof.
  apply (scan_ranges_intermediate_zero (repeat (F32.of_int 1) 8) 1);
    [reflexivity | cbn; auto].
Defined.

(** C3, as amended.  The entries at indices 0, 4, 16 and 20 are the raw
    distances of sensors 4, 5, 2 and 3; the entry at index 10 is computed from
    the distances of sensors 7 and 0. *)
Theorem scan_ranges_sensor_entries (dist : list spec_float) :
  let scan := scan_ranges dist in
  let entry i := nth i scan (S754_zero false) in
  length scan = 21%nat /\
  entry 0%nat = at_ dist 4 /\ entry 4%nat = at_ dist 5 /\
  entry 16%nat = at_ dist 2 /\ entry 20%nat = at_ dist 3 /\
  entry 10%nat = blend 1 2 (at_ dist 7) 1 2 (at_ dist 0).
Proof. repeat split. Qed.

(** C3 as stated fails at index 10, the bearing 0 where no proximity sensor
    sits: with the eight distances 1.0, 2.0, ..., 8.0 the entry is the
    distance of no sensor. *)
Lemma scan_ranges_index_10_no_sensor :
  let dist := map F32.of_int [1; 2; 3; 4; 5; 6; 7; 8] in
  ~ (exists i : nat, (i < 8)%nat /\
       nth 10 (scan_ranges dist) (S754_zero false) = at_ dist i).
Proof.
  cbv zeta. intros (i & Hi & E).
  do 8 (destruct i as [|i]; [vm_compute in E; discriminate E|]). lia.
Qed.

(** C7 (what the code computes).  The metadata of every scan is fixed: the
    angles are -150, 150 and 15 degrees in radians, the range limits are 0.005
    and 0.05 plus the offset 0.035, but the scan time is [PERIOD_MS / 1000],
    a quotient of [int]s, that is 0 and not 0.064. *)
Theorem publish_distance_data_metadata (char_signed : bool) (st : node) (stamp : Z) :
  let msg := publish_distance_data char_signed st stamp in
  scan_time msg = S754_zero false /\
  SFeqb (scan_time msg) (lit32 64 3) = false /\
  angle_min msg = F32.of_float (F64.div (F64.mul (F64.of_int (-150)) M_PI) (F64.of_int 180)) /\
  angle_max msg = F32.of_float (F64.div (F64.mul (F64.of_int 150) M_PI) (F64.of_int 180)) /\
  angle_increment msg = F32.of_float (F64.div (F64.mul (F64.of_int 15) M_PI) (F64.of_int 180)) /\
  range_min msg = F32.of_float (F64.add (lit64 5 3) (lit64 35 3)) /\
  range_max msg = F32.of_float (F64.add (lit64 5 2) (lit64 35 3)).
Proof. cbv zeta. repeat split; vm_compute; reflexivity. Qed.

(** ** The periodic exchange *)

(** C1 (what the code computes).  [update_callback] never calls
    [publish_distance_data]: whatever the transport answers, no scan is
    published by a tick. *)
Theorem update_callback_publishes_nothing
        (ndebug : bool) (now : Z) (st : node) (t : transport) :
  published (update_callback ndebug now st t) = [].
Proof.
  unfold update_callback.
  destruct (negb ndebug && negb (0 <=? set_address_status t)); reflexivity.
Qed.

Lemma spin_aborted (now : Z) (st : node) (t : transport) (rest : list (Z * transport)) :
  ended (update_callback false now st t) = Aborted ->
  spin false st ((now, t) :: rest) =
  ([update_callback false now st t], node_after (update_callback false now st t)).
Proof. intros H. cbn [spin]. rewrite H. reflexivity. Qed.

(** C6, as amended.  In a node built with assertions, when selecting the
    address fails the assertion aborts the process before the write and the
    read: the sensor frame is not updated, nothing is published, and no later
    tick runs.  When the address is selected the callback returns, whatever
    the write and the read answer. *)
Theorem update_callback_address_failure
        (now : Z) (st : node) (t t' : transport) (rest : list (Z * transport)) :
  set_address_status t < 0 ->
  0 <= set_address_status t' ->
  (let r := update_callback false now st t in
   ended r = Aborted /\
   calls r = [SetAddress 31] /\
   node_after r = st /\
   published r = [] /\
   spin false st ((now, t) :: rest) = ([r], st)) /\
  ended (update_callback false now st t') = Returned.
Proof.
  intros H H'. split.
  - assert (E : update_callback false now st t =
                {| node_after := st; calls := [SetAddress 31];
                   published := []; ended := Aborted |}).
    { unfold update_callback.
      replace (0 <=? set_address_status t) with false by (symmetry; apply Z.leb_gt; exact H).
      reflexivity. }
    cbv zeta. rewrite spin_aborted; rewrite E; repeat split.
  - unfold update_callback.
    replace (0 <=? set_address_status t') with true by (symmetry; apply Z.leb_le; exact H').
    reflexivity.
Qed.

Lemma update_callback_address_failure_witness :
  (let r := update_callback false 0 init failing_transport in
   ended r = Aborted /\
   calls r = [SetAddress 31] /\
   node_after r = init /\
   published r = [] /\
   spin false init [(0, failing_transport); (64, working_transport)] = ([r], init)) /\
  ended (update_callback false 0 init working_transport) = Returned.
Proof.
  apply (update_callback_address_failure 0 init failing_transport working_transport
           [(64, working_transport)]); [reflexivity | discriminate].
Defined.

(** C6 as stated fails.  With assertions the process is aborted on the
    failing tick and the next tick never runs; without them ([NDEBUG]) the
    exchange goes on and the sensor frame is overwritten. *)
Lemma update_callback_address_failure_crashes :
  ~ (forall (ndebug : bool) (t : transport),
       set_address_status t < 0 ->
       let r := update_callback ndebug 0 init t in
       ended r = Returned /\
       msg_sensors (node_after r) = msg_sensors init /\
       length (fst (spin ndebug init [(0, t); (64, working_transport)])) = 2%nat).
Proof.
  intros H.
  destruct (H false failing_transport ltac:(reflexivity)) as (E & _).
  discriminate E.
Qed.

(** ** The actuator frame *)

Lemma low_byte_mod (r : Z) : low_byte r = r mod 256.
Proof. unfold low_byte. change 255 with (Z.ones 8). rewrite Z.land_ones by lia. reflexivity. Qed.

Lemma high_byte_mod (r : Z) : high_byte r = (r / 256) mod 256.
Proof.
  unfold high_byte. change 255 with (Z.ones 8).
  rewrite Z.land_ones, Z.shiftr_div_pow2 by lia. reflexivity.
Qed.

Lemma decode_encode_int16 (r : Z) :
  -32768 <= r < 32768 -> decode_int16_le (low_byte r) (high_byte r) = r.
Proof.
  intros H. unfold decode_int16_le. rewrite low_byte_mod, high_byte_mod. cbv zeta.
  destruct (Z.ltb_spec (r mod 256 + 256 * ((r / 256) mod 256)) 32768);
    Z.div_mod_to_equations; lia.
Qed.

(** C9.  A register in [[-1108, 1108]] written into the actuator frame as low
    byte then high byte is read back unchanged as a little-endian signed
    16-bit value; 300 is written as (0x2C, 0x01) and -1 as (0xFF, 0xFF). *)
Theorem register_round_trip (left_big right_big : Z) (frame : list Z) :
  -1108 <= left_big <= 1108 -> -1108 <= right_big <= 1108 ->
  length frame = MSG_ACTUATORS_SIZE ->
  let frame' := encode_registers left_big right_big frame in
  decode_int16_le (load 0 frame') (load 1 frame') = left_big /\
  decode_int16_le (load 2 frame') (load 3 frame') = right_big /\
  (low_byte 300, high_byte 300) = (44, 1) /\
  (low_byte (-1), high_byte (-1)) = (255, 255).
Proof.
  intros Hl Hr Hlen.
  destruct frame as [|f0 [|f1 [|f2 [|f3 frame]]]]; try discriminate Hlen.
  cbv zeta. unfold encode_registers, load. cbn [store nth].
  rewrite !decode_encode_int16 by lia. repeat split.
Qed.

Lemma register_round_trip_witness :
  let frame' := encode_registers 300 (-1) (msg_actuators init) in
  decode_int16_le (load 0 frame') (load 1 frame') = 300 /\
  decode_int16_le (load 2 frame') (load 3 frame') = -1 /\
  (low_byte 300, high_byte 300) = (44, 1) /\
  (low_byte (-1), high_byte (-1)) = (255, 255).
Proof.
  apply (register_round_trip 300 (-1) (msg_actuators init)); [lia | lia | reflexivity].
Defined.

(** * Further properties *)

(** ** The distance model *)

Lemma intensity_to_distance_finite (x : spec_float) :
  F32.valid x = true ->
  finite32 (intensity_to_distance x) = true /\
  0 <= val32 (intensity_to_distance x) /\
  (intensity_to_distance x = sentinel \/
   val32 (intensity_to_distance x) <= val32 (lit32 1 1)).
Proof.
  intros V. destruct (intensity_regions x V) as [Hout|[N Hin]].
  - rewrite (intensity_outside x V Hout). repeat split; [discriminate | left; reflexivity].
  - destruct (intensity_inside x x V V N N ltac:(lia) ltac:(lia) ltac:(lia))
      as (F & _ & L & _ & U).
    repeat split; [exact F | exact L | right; exact U].
Qed.

(** X1.  The sentinel marks exactly the inputs outside the table: for a
    [float] input the result is 100.0 if and only if the input is a NaN, is
    not above 0, or is above 4095. *)
Theorem intensity_to_distance_sentinel_iff (p_x : spec_float) :
  F32.valid p_x = true ->
  (intensity_to_distance p_x = sentinel <->
   F32.ltb (F32.of_int 0) p_x && F32.leb p_x (F32.of_int 4095) = false).
Proof.
  intros V. destruct (is_nan p_x) eqn:N.
  { destruct p_x; try discriminate N. split; reflexivity. }
  rewrite (ltb32_val (F32.of_int 0) p_x eq_refl V eq_refl N).
  rewrite (leb32_val p_x (F32.of_int 4095) V eq_refl N eq_refl).
  change (val32 (F32.of_int 0)) with 0.
  destruct (intensity_regions p_x V) as [Hout|[_ Hin]].
  - split; [|intros _; apply intensity_outside; assumption].
    intros _. apply andb_false_iff. rewrite Z.ltb_ge, Z.leb_gt.
    destruct Hout as [Hn|[H|H]]; [congruence | left; exact H | right; exact H].
  - split; [|intros H; apply andb_false_iff in H; rewrite Z.ltb_ge, Z.leb_gt in H; lia].
    intros E.
    destruct (intensity_inside p_x p_x V V N N ltac:(lia) ltac:(lia) ltac:(lia))
      as (_ & _ & _ & _ & U).
    rewrite E in U. pose proof table_below_sentinel. lia.
Qed.

Lemma intensity_to_distance_sentinel_iff_witness :
  intensity_to_distance (F32.of_int 70000) = sentinel <->
  F32.ltb (F32.of_int 0) (F32.of_int 70000) && F32.leb (F32.of_int 70000) (F32.of_int 4095) = false.
Proof.
  apply (intensity_to_distance_sentinel_iff (F32.of_int 70000)). vm_compute. reflexivity.
Defined.



(** ** Decoding the sensor frame *)

Lemma of_int32_valid (n : Z) :
  F32.valid (F32.of_int n) = true /\ is_nan (F32.of_int n) = false.
Proof.
  destruct (binary_normalize_val F32.prec F32.emax prec32_pos prec32_lt_emax n 0 false)
    as (V & N & _); [vm_compute; discriminate|].
  split; assumption.
Qed.

Lemma decode_measurements_nth (char_signed : bool) (sensors : list Z) (i : nat) :
  (i < 8)%nat ->
  nth i (decode_measurements char_signed sensors) (S754_zero false) =
  F32.add (intensity_to_distance (F32.of_int (distance_intensity char_signed sensors i)))
          distance_from_center.
Proof.
  intros H. unfold decode_measurements.
  do 8 (destruct i as [|i]; [reflexivity|]). lia.
Qed.

(** A distance of the table, moved by the offset of the sensors. *)
Lemma offset_distance (r : spec_float) :
  finite32 r = true -> 0 <= val32 r -> val32 r <= val32 sentinel ->
  let d := F32.add r distance_from_center in
  finite32 d = true /\
  val32 distance_from_center <= val32 d /\
  val32 d <= val32 no_detection /\
  (val32 r <= val32 (lit32 1 1) -> val32 d <= val32 (F32.add (lit32 1 1) distance_from_center)).
Proof.
  intros F L U. cbv zeta.
  destruct (add32_val r distance_from_center F eq_refl) as (V & N & E).
  destruct (add32_val sentinel distance_from_center eq_refl eq_refl) as (_ & _ & Es).
  destruct (add32_val (lit32 1 1) distance_from_center eq_refl eq_refl) as (_ & _ & Et).
  pose proof (round32_id distance_from_center eq_refl) as Ec.
  fold no_detection in Es.
  assert (B1 : val32 distance_from_center <= val32 (F32.add r distance_from_center)).
  { rewrite E, <- Ec at 1. apply round32_mono. lia. }
  assert (B2 : val32 (F32.add r distance_from_center) <= val32 no_detection).
  { rewrite E, Es. apply round32_mono. lia. }
  repeat split; try assumption.
  - apply bound32_finite; try assumption.
    pose proof (finite32_bound no_detection eq_refl).
    pose proof (finite32_bound distance_from_center eq_refl). lia.
  - intros H. rewrite E, Et. apply round32_mono. lia.
Qed.

Lemma decoded_bounds (char_signed : bool) (sensors : list Z) (i : nat) :
  (i < 8)%nat ->
  let d := nth i (decode_measurements char_signed sensors) (S754_zero false) in
  is_finite d = true /\
  F32.leb distance_from_center d = true /\
  (d = no_detection \/ F32.leb d (F32.add (lit32 1 1) distance_from_center) = true).
Proof.
  intros H. cbv zeta. rewrite (decode_measurements_nth _ _ _ H).
  set (x := F32.of_int (distance_intensity char_signed sensors i)).
  destruct (of_int32_valid (distance_intensity char_signed sensors i)) as [V _]. fold x in V.
  destruct (intensity_to_distance_finite x V) as (F & L & C).
  assert (U : val32 (intensity_to_distance x) <= val32 sentinel).
  { destruct C as [-> |C]; [lia | pose proof table_below_sentinel; lia]. }
  destruct (offset_distance _ F L U) as (Fd & B1 & B2 & B3).
  split; [apply finite32_iff in Fd; tauto|].
  split.
  - rewrite leb32_val; auto using finite32_valid, finite32_not_nan. apply Z.leb_le. exact B1.
  - destruct C as [C|C]; [left; rewrite C; reflexivity|].
    right. rewrite leb32_val; auto using finite32_valid, finite32_not_nan.
    apply Z.leb_le. apply B3. exact C.
Qed.

(** X3.  Whatever the sensor frame holds, each of the eight decoded distances
    is a finite number between the offset 0.035 and the "no detection" value
    100.0 + 0.035; it is that value, or at most 0.1 + 0.035. *)
Theorem decode_measurements_range (char_signed : bool) (sensors : list Z) (i : nat) :
  (i < 8)%nat ->
  let d := nth i (decode_measurements char_signed sensors) (S754_zero false) in
  length (decode_measurements char_signed sensors) = 8%nat /\
  is_finite d = true /\
  F32.leb distance_from_center d = true /\
  (d = no_detection \/ F32.leb d (F32.add (lit32 1 1) distance_from_center) = true).
Proof.
  intros H. split; [reflexivity|]. apply decoded_bounds. exact H.
Qed.

Lemma decode_measurements_range_witness :
  let d := nth 2 (decode_measurements false (msg_sensors init)) (S754_zero false) in
  length (decode_measurements false (msg_sensors init)) = 8%nat /\
  is_finite d = true /\
  F32.leb distance_from_center d = true /\
  (d = no_detection \/ F32.leb d (F32.add (lit32 1 1) distance_from_center) = true).
Proof. apply (decode_measurements_range false (msg_sensors init) 2). lia. Defined.

(** X4.  A sensor whose two bytes are 0, as in the frame the constructor
    zeroes, reads as "no detection": its distance is 100.0 + 0.035. *)
Theorem decode_measurements_zero_sample (char_signed : bool) (sensors : list Z) (i : nat) :
  (i < 8)%nat ->
  load (i * 2) sensors = 0 -> load (i * 2 + 1) sensors = 0 ->
  nth i (decode_measurements char_signed sensors) (S754_zero false) = no_detection.
Proof.
  intros H H0 H1. rewrite (decode_measurements_nth _ _ _ H).
  unfold distance_intensity. rewrite H0, H1.
  destruct char_signed; reflexivity.
Qed.

Lemma decode_measurements_zero_sample_witness :
  nth 5 (decode_measurements true (msg_sensors init)) (S754_zero false) = no_detection.
Proof.
  apply (decode_measurements_zero_sample true (msg_sensors init) 5); [lia | reflexivity..].
Defined.

(** The intensity read from two bytes. *)
Lemma char_value_unsigned (b : Z) : char_value false b = b.
Proof. reflexivity. Qed.

(** X5.  With bytes in [[0, 255]], where [char] is unsigned the intensity of
    sensor [i] is the little-endian 16-bit value of its two bytes, in
    [[0, 65535]]; where [char] is signed a byte of 128 or more counts as
    negative and the intensity is that value less 256 (low byte) and less
    65536 (high byte). *)
Theorem distance_intensity_bytes (sensors : list Z) (i : nat) :
  0 <= load (i * 2) sensors <= 255 ->
  0 <= load (i * 2 + 1) sensors <= 255 ->
  let low := load (i * 2) sensors in
  let high := load (i * 2 + 1) sensors in
  distance_intensity false sensors i = low + 256 * high /\
  0 <= distance_intensity false sensors i <= 65535 /\
  distance_intensity true sensors i =
    low + 256 * high - (if 128 <=? low then 256 else 0) - (if 128 <=? high then 65536 else 0) /\
  -32896 <= distance_intensity true sensors i <= 32639.
Proof.
  intros Hl Hh. cbv zeta. unfold distance_intensity, char_value. cbn [andb].
  rewrite !Z.shiftl_mul_pow2 by lia. change (2 ^ 8) with 256.
  destruct (Z.leb_spec 128 (load (i * 2) sensors));
    destruct (Z.leb_spec 128 (load (i * 2 + 1) sensors)); lia.
Qed.

Lemma distance_intensity_bytes_witness :
  let sensors := [200; 3] ++ repeat 0 45 in
  let low := load (0 * 2) sensors in
  let high := load (0 * 2 + 1) sensors in
  distance_intensity false sensors 0 = low + 256 * high /\
  0 <= distance_intensity false sensors 0 <= 65535 /\
  distance_intensity true sensors 0 =
    low + 256 * high - (if 128 <=? low then 256 else 0) - (if 128 <=? high then 65536 else 0) /\
  -32896 <= distance_intensity true sensors 0 <= 32639.
Proof.
  apply (distance_intensity_bytes ([200; 3] ++ repeat 0 45) 0); cbn; lia.
Defined.

(** ** The published ranges *)

Lemma positive_finite (d : spec_float) :
  is_finite d = true -> 0 < val32 d -> exists m e, d = S754_finite false m e.
Proof.
  destruct d as [s|s| |[] m e]; cbn [is_finite]; intros F H; try discriminate F.
  - change (0 < 0) in H. lia.
  - exfalso. unfold val32 in H. cbn [Zval cond_Zopp] in H.
    assert (0 <= 2 ^ (e - unit_exp F32.prec F32.emax)) by (apply Z.pow_nonneg; lia). nia.
  - exists m, e. reflexivity.
Qed.

Lemma blend_positive (n1 d1 n2 d2 : Z) (m1 m2 : positive) (e1 e2 : Z) :
  Z.quot n1 d1 = 0 -> Z.quot n2 d2 = 0 ->
  blend n1 d1 (S754_finite false m1 e1) n2 d2 (S754_finite false m2 e2) = S754_zero false.
Proof. intros H1 H2. unfold blend. rewrite H1, H2. reflexivity. Qed.

Lemma decoded_positive (char_signed : bool) (sensors : list Z) (i : nat) :
  (i < 8)%nat ->
  exists m e, at_ (decode_measurements char_signed sensors) i = S754_finite false m e.
Proof.
  intros H. unfold at_.
  destruct (decoded_bounds char_signed sensors i H) as (F & L & _).
  apply positive_finite; [exact F|].
  rewrite leb32_val in L.
  - apply Z.leb_le in L.
    assert (0 < val32 distance_from_center) by (vm_compute; reflexivity). lia.
  - reflexivity.
  - rewrite (decode_measurements_nth _ _ _ H).
    destruct (of_int32_valid (distance_intensity char_signed sensors i)) as [V _].
    destruct (intensity_to_distance_finite _ V) as (Fr & _).
    apply (add32_val _ distance_from_center Fr eq_refl).
  - reflexivity.
  - apply is_finite_not_nan. exact F.
Qed.

(** X6.  Every scan that [publish_distance_data] builds has 21 ranges: the
    eight entries at indices 0, 4, 7, 9, 11, 13, 16 and 20 are the decoded
    distances of sensors 4, 5, 6, 7, 0, 1, 2 and 3, and the thirteen entries
    between them are exactly 0.0, whatever the sensor frame holds. *)
Theorem published_ranges (char_signed : bool) (st : node) (stamp : Z) :
  let scan := ranges (publish_distance_data char_signed st stamp) in
  let dist := decode_measurements char_signed (msg_sensors st) in
  length scan = 21%nat /\
  (forall i : nat, In i [1; 2; 3; 5; 6; 8; 10; 12; 14; 15; 17; 18; 19]%nat ->
                   nth i scan (S754_zero false) = S754_zero false) /\
  (forall i j : nat,
      In (i, j) [(0, 4); (4, 5); (7, 6); (9, 7); (11, 0); (13, 1); (16, 2); (20, 3)]%nat ->
      nth i scan (S754_zero false) = nth j dist (S754_zero false)).
Proof.
  cbv zeta. cbn [publish_distance_data ranges].
  set (dist := decode_measurements char_signed (msg_sensors st)).
  assert (P : forall k, (k < 8)%nat -> exists m e, at_ dist k = S754_finite false m e)
    by (intros k Hk; apply decoded_positive; exact Hk).
  split; [reflexivity|]. split.
  - intros i Hi. unfold scan_ranges. cbv zeta. cbn [In] in Hi.
    repeat (destruct Hi as [<-|Hi];
            [cbn [nth];
             match goal with
             | |- blend _ _ (at_ dist ?a) _ _ (at_ dist ?b) = _ =>
                 destruct (P a ltac:(lia)) as (m1 & e1 & ->);
                 destruct (P b ltac:(lia)) as (m2 & e2 & ->);
                 apply blend_positive; reflexivity
             end|]).
    contradiction.
  - intros i j Hij. cbn [In] in Hij.
    repeat (destruct Hij as [E|Hij]; [inversion E; subst; reflexivity|]).
    contradiction.
Qed.

(** ** The kinematics converter, on every input *)

(** X7.  Saturation holds for every [double], NaN and infinities included:
    both registers always lie in [[-1108, 1108]]. *)
Theorem cmd_to_registers_saturates (linear_x angular_z : spec_float) :
  -1108 <= fst (cmd_to_registers linear_x angular_z) <= 1108 /\
  -1108 <= snd (cmd_to_registers linear_x angular_z) <= 1108.
Proof.
  unfold cmd_to_registers, velocity_big. cbn [fst snd].
  split; apply CLIP_range; apply (SFdiv_valid F64.prec F64.emax prec64_pos).
Qed.

Lemma velocity_big_nan : velocity_big S754_nan = -1108.
Proof. reflexivity. Qed.

(** X8.  A command with a NaN in either field drives both registers to the
    lower bound -1108: every comparison of the macro [CLIP] with a NaN is
    false, so it falls through to [MIN]. *)
Theorem cmd_to_registers_nan (linear_x angular_z : spec_float) :
  is_nan linear_x = true \/ is_nan angular_z = true ->
  cmd_to_registers linear_x angular_z = (-1108, -1108).
Proof.
  intros H. unfold cmd_to_registers, left_velocity, right_velocity.
  assert (E : F64.mul two linear_x = S754_nan \/ F64.mul angular_z WHEEL_DISTANCE = S754_nan).
  { destruct H as [H|H]; [left; destruct linear_x | right; destruct angular_z];
      try discriminate H; reflexivity. }
  assert (L : F64.sub (F64.mul two linear_x) (F64.mul angular_z WHEEL_DISTANCE) = S754_nan).
  { destruct E as [-> | ->]; [reflexivity|]. destruct (F64.mul two linear_x); reflexivity. }
  assert (R : F64.add (F64.mul two linear_x) (F64.mul angular_z WHEEL_DISTANCE) = S754_nan).
  { destruct E as [-> | ->]; [reflexivity|]. destruct (F64.mul two linear_x); reflexivity. }
  rewrite L, R. reflexivity.
Qed.

Lemma cmd_to_registers_nan_witness :
  cmd_to_registers S754_nan (lit64 5 1) = (-1108, -1108).
Proof. apply (cmd_to_registers_nan S754_nan (lit64 5 1)). left. reflexivity. Defined.

Lemma velocity_big_zero (s : bool) : velocity_big (S754_zero s) = 0.
Proof. destruct s; reflexivity. Qed.

(** X9.  A command without rotation ([angular_z] is a zero) gives the same
    register to both wheels, whatever [linear_x] is. *)
Theorem cmd_to_registers_straight (linear_x : spec_float) (s : bool) :
  fst (cmd_to_registers linear_x (S754_zero s)) =
  snd (cmd_to_registers linear_x (S754_zero s)).
Proof.
  unfold cmd_to_registers, left_velocity, right_velocity. cbn [fst snd].
  assert (Eb : F64.mul (S754_zero s) WHEEL_DISTANCE = S754_zero s) by (destruct s; reflexivity).
  rewrite Eb.
  destruct (F64.mul two linear_x) as [sa|sa| |sa ma ea].
  - destruct sa, s; reflexivity.
  - reflexivity.
  - reflexivity.
  - reflexivity.
Qed.

Lemma SFopp_valid (prec emax : Z) (x : spec_float) :
  valid_binary prec emax (SFopp x) = valid_binary prec emax x.
Proof. destruct x; reflexivity. Qed.

Lemma SFopp_nan (x : spec_float) : is_nan (SFopp x) = is_nan x.
Proof. destruct x; reflexivity. Qed.

Lemma cond_Zopp_negb' (s : bool) (z : Z) : cond_Zopp (negb s) z = - cond_Zopp s z.
Proof. destruct s; cbn; lia. Qed.

Lemma SFopp_val (prec emax : Z) (x : spec_float) :
  Zval prec emax (SFopp x) = - Zval prec emax x.
Proof. destruct x; cbn [SFopp Zval]; try reflexivity; apply cond_Zopp_negb'. Qed.

Lemma finish_opp (prec emax : Z) (s : bool) (me : shr_record * Z) :
  finish prec emax (negb s) me = SFopp (finish prec emax s me).
Proof.
  unfold finish. destruct (shr_m (fst me)); try reflexivity.
  destruct (snd me <=? emax - prec); reflexivity.
Qed.

(** Rounding is to nearest even whatever the sign: the quotient of the
    opposite is the opposite of the quotient. *)
Lemma SFdiv_opp (prec emax : Z) (x y : spec_float) :
  SFdiv prec emax (SFopp x) y = SFopp (SFdiv prec emax x y).
Proof.
  destruct x as [sx|sx| |sx mx ex]; destruct y as [sy|sy| |sy my ey];
    cbn [SFdiv SFopp]; try reflexivity;
    try (destruct sx, sy; reflexivity).
  destruct (SFdiv_core_binary prec emax (Z.pos mx) ex (Z.pos my) ey) as [[q e'] l].
  rewrite !binary_round_aux_eq. cbv zeta.
  replace (xorb (negb sx) sy) with (negb (xorb sx sy)) by (destruct sx, sy; reflexivity).
  apply finish_opp.
Qed.

(** The register of a number, infinities included: the value is clamped to
    [[-1108, 1108]] and its fractional part dropped. *)
Lemma CLIP_val (v : spec_float) :
  F64.valid v = true -> is_nan v = false ->
  F64.to_int (CLIP v (-1108) 1108) =
  Z.quot (Z.max (-1108 * unit64) (Z.min (1108 * unit64) (val64 v))) unit64.
Proof.
  intros V N. unfold CLIP. cbv zeta.
  destruct clip_bounds_val as (Hhi & Hlo & Ht). pose proof unit64_pos as HK.
  unfold F64.gtb, F64.ltb.
  rewrite (ltb64_val (F64.of_int 1108) v eq_refl V eq_refl N).
  destruct (Z.ltb_spec (val64 (F64.of_int 1108)) (val64 v)) as [H1|H1].
  { rewrite Z.min_l by lia. rewrite Z.max_r by lia.
    rewrite Z.quot_mul by lia. reflexivity. }
  cbv iota.
  rewrite (ltb64_val (F64.of_int (-1108)) v eq_refl V eq_refl N).
  destruct (Z.ltb_spec (val64 (F64.of_int (-1108))) (val64 v)) as [H2|H2].
  - rewrite Z.min_r by lia. rewrite Z.max_r by lia.
    apply to_int_val. apply bound64_finite; try assumption. lia.
  - rewrite Z.max_l by lia. rewrite Z.quot_mul by lia. reflexivity.
Qed.

Lemma velocity_big_opp (w : spec_float) :
  is_nan w = false -> velocity_big (SFopp w) = - velocity_big w.
Proof.
  intros N. unfold velocity_big, F64.div. rewrite SFdiv_opp.
  destruct (div64_number w register_step N eq_refl) as (V & N').
  unfold F64.div in V, N'.
  rewrite !CLIP_val; try assumption.
  - unfold val64. rewrite SFopp_val. rewrite <- Z.quot_opp_l by (pose proof unit64_pos; lia).
    f_equal. generalize (Zval F64.prec F64.emax (SFdiv F64.prec F64.emax w register_step)).
    pose proof unit64_pos as HK. revert HK. generalize unit64. intros K HK x. lia.
  - unfold F64.valid. rewrite SFopp_valid. exact V.
  - rewrite SFopp_nan. exact N'.
Qed.

Lemma mul_wheel_distance_number (angular_z : spec_float) :
  F64.valid angular_z = true -> is_nan angular_z = false ->
  is_nan (F64.mul angular_z WHEEL_DISTANCE) = false.
Proof.
  intros V N. destruct angular_z as [s|s| |s m e]; try discriminate N; try reflexivity.
  assert (F : finite64 (S754_finite s m e) = true) by (apply finite64_iff; split; [exact V|reflexivity]).
  destruct (mul64_val _ WHEEL_DISTANCE F eq_refl) as (_ & N' & _). exact N'.
Qed.

(** X10.  A pure rotation ([linear.x] is a zero, [angular.z] any number,
    infinities included) gives opposite registers to the two wheels. *)
Theorem cmd_to_registers_rotation (s : bool) (angular_z : spec_float) :
  F64.valid angular_z = true -> is_nan angular_z = false ->
  fst (cmd_to_registers (S754_zero s) angular_z) =
  - snd (cmd_to_registers (S754_zero s) angular_z).
Proof.
  intros V N. unfold cmd_to_registers, left_velocity, right_velocity. cbn [fst snd].
  pose proof (mul_wheel_distance_number angular_z V N) as Nb.
  assert (Ea : F64.mul two (S754_zero s) = S754_zero s) by (destruct s; reflexivity).
  rewrite Ea.
  destruct (F64.mul angular_z WHEEL_DISTANCE) as [sb|sb| |sb mb eb] eqn:Eb;
    try discriminate Nb.
  - destruct s, sb; reflexivity.
  - change (F64.sub (S754_zero s) (S754_infinity sb)) with (SFopp (S754_infinity sb)).
    change (F64.add (S754_zero s) (S754_infinity sb)) with (S754_infinity sb).
    unfold F64.div at 1. rewrite SFdiv_opp. apply velocity_big_opp.
    apply (div64_number (S754_infinity sb) (F64.mul two WHEEL_RADIUS) eq_refl eq_refl).
  - change (F64.sub (S754_zero s) (S754_finite sb mb eb)) with (SFopp (S754_finite sb mb eb)).
    change (F64.add (S754_zero s) (S754_finite sb mb eb)) with (S754_finite sb mb eb).
    unfold F64.div at 1. rewrite SFdiv_opp. apply velocity_big_opp.
    apply (div64_number (S754_finite sb mb eb) (F64.mul two WHEEL_RADIUS) eq_refl eq_refl).
Qed.

Lemma cmd_to_registers_rotation_witness :
  fst (cmd_to_registers (S754_zero false) (lit64 5 1)) =
  - snd (cmd_to_registers (S754_zero false) (lit64 5 1)).
Proof. apply (cmd_to_registers_rotation false (lit64 5 1)); reflexivity. Defined.

(** X11.  An infinite [linear.x] with a finite [angular.z] saturates both
    wheels on the side of its sign. *)
Theorem cmd_to_registers_infinite (s : bool) (angular_z : spec_float) :
  finite64 angular_z = true ->
  cmd_to_registers (S754_infinity s) angular_z =
  if s then (-1108, -1108) else (1108, 1108).
Proof.
  intros F. unfold cmd_to_registers, left_velocity, right_velocity.
  assert (Fb : finite64 (F64.mul angular_z WHEEL_DISTANCE) = true).
  { apply mul64_small; [exact F | reflexivity | vm_compute; split; discriminate]. }
  apply finite64_iff in Fb. destruct Fb as [_ Fb].
  assert (Ea : F64.mul two (S754_infinity s) = S754_infinity s) by (destruct s; reflexivity).
  rewrite Ea.
  destruct (F64.mul angular_z WHEEL_DISTANCE) as [sb|sb| |sb mb eb]; try discriminate Fb.
  - destruct s; reflexivity.
  - destruct s; reflexivity.
Qed.

Lemma cmd_to_registers_infinite_witness :
  cmd_to_registers (S754_infinity true) (lit64 5 1) = (-1108, -1108).
Proof. apply (cmd_to_registers_infinite true (lit64 5 1)). reflexivity. Defined.

(** ** The actuator frame *)

Lemma velocity_big_range (velocity : spec_float) : -1108 <= velocity_big velocity <= 1108.
Proof. apply CLIP_range. apply (SFdiv_valid F64.prec F64.emax prec64_pos). Qed.

Lemma length_store (i : nat) (v : Z) (buf : list Z) : length (store i v buf) = length buf.
Proof.
  revert i. induction buf as [|h t IH]; intros [|j]; cbn [store length]; try reflexivity.
  rewrite IH. reflexivity.
Qed.

Lemma load_store_other (i j : nat) (v : Z) (buf : list Z) :
  i <> j -> load i (store j v buf) = load i buf.
Proof.
  unfold load. revert i j. induction buf as [|h t IH]; intros [|i] [|j] H;
    cbn [store nth]; try reflexivity; try (exfalso; apply H; reflexivity).
  apply IH. intros E. apply H. rewrite E. reflexivity.
Qed.

Lemma Forall_store (P : Z -> Prop) (i : nat) (v : Z) (buf : list Z) :
  P v -> Forall P buf -> Forall P (store i v buf).
Proof.
  intros Hv. revert i. induction buf as [|h t IH]; intros [|j] H; cbn [store];
    try assumption; inversion H; subst; constructor; auto.
Qed.

Lemma low_byte_range (r : Z) : 0 <= low_byte r <= 255.
Proof. rewrite low_byte_mod. pose proof (Z.mod_pos_bound r 256). lia. Qed.

Lemma high_byte_range (r : Z) : 0 <= high_byte r <= 255.
Proof. rewrite high_byte_mod. pose proof (Z.mod_pos_bound (r / 256) 256). lia. Qed.

(** X12.  Receiving a command touches only the first four bytes of the
    actuator frame: the frame keeps its length, every byte from index 4 on
    and the whole sensor frame are unchanged, and a frame of bytes stays a
    frame of bytes, whatever the command. *)
Theorem on_cmd_vel_received_frame (st : node) (msg : Twist) :
  let st' := on_cmd_vel_received st msg in
  length (msg_actuators st') = length (msg_actuators st) /\
  (forall i, (4 <= i)%nat -> load i (msg_actuators st') = load i (msg_actuators st)) /\
  msg_sensors st' = msg_sensors st /\
  (Forall (fun b => 0 <= b <= 255) (msg_actuators st) ->
   Forall (fun b => 0 <= b <= 255) (msg_actuators st')).
Proof.
  cbv zeta. unfold on_cmd_vel_received.
  destruct (cmd_to_registers (linear_x msg) (angular_z msg)) as [l r].
  cbn [msg_actuators msg_sensors]. unfold encode_registers.
  repeat split.
  - rewrite !length_store. reflexivity.
  - intros i Hi. rewrite !load_store_other by lia. reflexivity.
  - intros H. repeat apply Forall_store;
      try apply low_byte_range; try apply high_byte_range. exact H.
Qed.

(** X13.  From command to wire and back: for every command, NaN and
    infinities included, the first four bytes of the actuator frame read as
    two little-endian signed 16-bit values are the two registers computed
    from the command. *)
Theorem on_cmd_vel_received_round_trip (st : node) (msg : Twist) :
  length (msg_actuators st) = MSG_ACTUATORS_SIZE ->
  let frame := msg_actuators (on_cmd_vel_received st msg) in
  (decode_int16_le (load 0 frame) (load 1 frame),
   decode_int16_le (load 2 frame) (load 3 frame)) =
  cmd_to_registers (linear_x msg) (angular_z msg).
Proof.
  intros Hlen. cbv zeta. unfold on_cmd_vel_received, cmd_to_registers.
  pose proof (velocity_big_range (left_velocity (linear_x msg) (angular_z msg))) as Hl.
  pose proof (velocity_big_range (right_velocity (linear_x msg) (angular_z msg))) as Hr.
  cbn [msg_actuators].
  destruct (msg_actuators st) as [|f0 [|f1 [|f2 [|f3 frame]]]]; try discriminate Hlen.
  unfold encode_registers, load. cbn [store nth].
  rewrite !decode_encode_int16 by lia. reflexivity.
Qed.

Lemma on_cmd_vel_received_round_trip_witness :
  let frame := msg_actuators (on_cmd_vel_received init
                 {| linear_x := lit64 1 1; angular_z := S754_nan |}) in
  (decode_int16_le (load 0 frame) (load 1 frame),
   decode_int16_le (load 2 frame) (load 3 frame)) =
  cmd_to_registers (lit64 1 1) S754_nan.
Proof.
  apply (on_cmd_vel_received_round_trip init
           {| linear_x := lit64 1 1; angular_z := S754_nan |}).
  reflexivity.
Defined.

Lemma encode_registers_overwrite (l1 r1 l2 r2 : Z) (frame : list Z) :
  encode_registers l2 r2 (encode_registers l1 r1 frame) = encode_registers l2 r2 frame.
Proof.
  unfold encode_registers.
  destruct frame as [|f0 [|f1 [|f2 [|f3 frame]]]]; reflexivity.
Qed.

(** X14.  The last command wins: a command overwrites all that an earlier
    command wrote, for a frame of any length. *)
Theorem on_cmd_vel_received_overwrites (st : node) (first second : Twist) :
  on_cmd_vel_received (on_cmd_vel_received st first) second =
  on_cmd_vel_received st second.
Proof.
  unfold on_cmd_vel_received.
  destruct (cmd_to_registers (linear_x first) (angular_z first)) as [l1 r1].
  destruct (cmd_to_registers (linear_x second) (angular_z second)) as [l2 r2].
  cbn [msg_actuators msg_sensors]. rewrite encode_registers_overwrite. reflexivity.
Qed.

(** ** The timer loop *)

Lemma update_callback_actuators (ndebug : bool) (now : Z) (st : node) (t : transport) :
  msg_actuators (node_after (update_callback ndebug now st t)) = msg_actuators st.
Proof.
  unfold update_callback.
  destruct (negb ndebug && negb (0 <=? set_address_status t)); reflexivity.
Qed.

Lemma update_callback_returned (ndebug : bool) (now : Z) (st : node) (t : transport) :
  ended (update_callback ndebug now st t) = Returned ->
  calls (update_callback ndebug now st t) =
  [SetAddress 31; WriteData (msg_actuators st) MSG_ACTUATORS_SIZE; ReadData MSG_SENSORS_SIZE].
Proof.
  unfold update_callback.
  destruct (negb ndebug && negb (0 <=? set_address_status t)); [discriminate | reflexivity].
Qed.

Lemma update_callback_ended (ndebug : bool) (now : Z) (st : node) (t : transport) :
  ended (update_callback ndebug now st t) =
  if negb ndebug && negb (0 <=? set_address_status t) then Aborted else Returned.
Proof.
  unfold update_callback.
  destruct (negb ndebug && negb (0 <=? set_address_status t)); reflexivity.
Qed.

(** X15.  The timer never changes the actuator frame: over any run of
    ticks, with or without assertions, the frame at the end is the frame at
    the start, and every tick that returns wrote that very frame to the
    device, between selecting address 0x1F and reading 47 bytes. *)
Theorem spin_keeps_actuators (ndebug : bool) (st : node) (ticks : list (Z * transport)) :
  msg_actuators (snd (spin ndebug st ticks)) = msg_actuators st /\
  Forall (fun r =>
            msg_actuators (node_after r) = msg_actuators st /\
            (ended r = Returned ->
             calls r = [SetAddress 31;
                        WriteData (msg_actuators st) MSG_ACTUATORS_SIZE;
                        ReadData MSG_SENSORS_SIZE]))
         (fst (spin ndebug st ticks)).
Proof.
  revert st. induction ticks as [|[now t] rest IH]; intros st; cbn [spin].
  - split; [reflexivity | constructor].
  - pose proof (update_callback_actuators ndebug now st t) as Ha.
    pose proof (update_callback_returned ndebug now st t) as Hc.
    destruct (ended (update_callback ndebug now st t)) eqn:E.
    + specialize (IH (node_after (update_callback ndebug now st t))).
      destruct (spin ndebug (node_after (update_callback ndebug now st t)) rest) as [rs st'].
      cbn [fst snd] in *. rewrite Ha in IH. destruct IH as [IH1 IH2].
      split; [exact IH1|]. constructor; [|exact IH2].
      split; [exact Ha | intros _; apply Hc; reflexivity].
    + cbn [fst snd]. split; [exact Ha|].
      constructor; [|constructor]. split; [exact Ha | intros F; rewrite E in F; discriminate F].
Qed.

(** X16.  Without assertions, or when every selection of the address
    succeeds, no tick is lost: the timer runs one callback per tick and each
    of them returns, whatever the write and the read answer. *)
Theorem spin_runs_every_tick (ndebug : bool) (st : node) (ticks : list (Z * transport)) :
  ndebug = true \/ Forall (fun nt => 0 <= set_address_status (snd nt)) ticks ->
  length (fst (spin ndebug st ticks)) = length ticks /\
  Forall (fun r => ended r = Returned) (fst (spin ndebug st ticks)).
Proof.
  intros H. revert st. induction ticks as [|[now t] rest IH]; intros st; cbn [spin].
  - split; [reflexivity | constructor].
  - assert (E : ended (update_callback ndebug now st t) = Returned).
    { rewrite update_callback_ended. destruct H as [-> | H]; [reflexivity|].
      inversion H as [|x l Hx Hl]; subst. cbn [snd] in Hx.
      replace (0 <=? set_address_status t) with true by (symmetry; apply Z.leb_le; exact Hx).
      rewrite andb_false_r. reflexivity. }
    rewrite E.
    assert (H' : ndebug = true \/ Forall (fun nt => 0 <= set_address_status (snd nt)) rest).
    { destruct H as [H | H]; [left; exact H | right; inversion H; assumption]. }
    specialize (IH H' (node_after (update_callback ndebug now st t))).
    destruct (spin ndebug (node_after (update_callback ndebug now st t)) rest) as [rs st'].
    cbn [fst snd length] in *. destruct IH as [IH1 IH2].
    split; [rewrite IH1; reflexivity | constructor; assumption].
Qed.

Lemma spin_runs_every_tick_witness :
  length (fst (spin true init [(0, failing_transport); (64, working_transport)])) = 2%nat /\
  Forall (fun r => ended r = Returned)
         (fst (spin true init [(0, failing_transport); (64, working_transport)])).
Proof.
  apply (spin_runs_every_tick true init [(0, failing_transport); (64, working_transport)]).
  left. reflexivity.
Defined.

(** X17.  With assertions, the first tick whose address selection fails is
    the last one: the ticks before it run as if nothing followed, the
    failing one aborts after its address selection, and no later tick
    runs. *)
Theorem spin_stops_at_first_failure
        (st : node) (before after : list (Z * transport)) (now : Z) (t : transport) :
  Forall (fun nt => 0 <= set_address_status (snd nt)) before ->
  set_address_status t < 0 ->
  let st' := snd (spin false st before) in
  fst (spin false st (before ++ (now, t) :: after)) =
  fst (spin false st before) ++
  [{| node_after := st'; calls := [SetAddress 31]; published := []; ended := Aborted |}] /\
  snd (spin false st (before ++ (now, t) :: after)) = st'.
Proof.
  intros Hb Ht. cbv zeta. revert st.
  induction before as [|[now0 t0] rest IH]; intros st.
  - cbn [app spin fst snd]. unfold update_callback.
    replace (0 <=? set_address_status t) with false by (symmetry; apply Z.leb_gt; exact Ht).
    cbn [negb andb ended node_after fst snd]. split; reflexivity.
  - inversion Hb as [|x l Hx Hl]; subst. cbn [snd] in Hx.
    cbn [app spin].
    assert (E : ended (update_callback false now0 st t0) = Returned).
    { rewrite update_callback_ended.
      replace (0 <=? set_address_status t0) with true by (symmetry; apply Z.leb_le; exact Hx).
      reflexivity. }
    rewrite E.
    specialize (IH Hl (node_after (update_callback false now0 st t0))).
    destruct (spin false (node_after (update_callback false now0 st t0))
                   (rest ++ (now, t) :: after)) as [rs1 st1].
    destruct (spin false (node_after (update_callback false now0 st t0)) rest) as [rs2 st2].
    cbn [fst snd] in *. destruct IH as [IH1 IH2]. rewrite IH1, IH2.
    split; reflexivity.
Qed.

Lemma spin_stops_at_first_failure_witness :
  let st' := snd (spin false init [(0, working_transport)]) in
  fst (spin false init ([(0, working_transport)] ++
                        (64, failing_transport) :: [(128, working_transport)])) =
  fst (spin false init [(0, working_transport)]) ++
  [{| node_after := st'; calls := [SetAddress 31]; published := []; ended := Aborted |}] /\
  snd (spin false init ([(0, working_transport)] ++
                        (64, failing_transport) :: [(128, working_transport)])) = st'.
Proof.
  apply (spin_stops_at_first_failure init [(0, working_transport)]
           [(128, working_transport)] 64 failing_transport).
  - repeat constructor. vm_compute. discriminate.
  - reflexivity.
Defined.
